(** * Customer information form: validation and storage (FP-5.py)

    A shallow embedding of the validation helpers, of [init_db],
    [save_to_db], [on_submit] and [clear_form], and the properties the
    specification states about them.

    Python strings are modelled as lists of characters; a character is a
    code point below 256 ([ascii]).  On that range the classes [\s] and
    [\d] of the [re] module and the characters removed by [str.strip] are
    the ones written out below. *)

From Stdlib Require Import List Bool Ascii String NArith ZArith Arith Lia.
Import ListNotations.

Set Implicit Arguments.

(** ** Strings *)

Definition str := list ascii.

(** A literal of the source file. *)
Definition lit (s : string) : str := list_ascii_of_string s.

Definition code (c : ascii) : N := N_of_ascii c.

Definition LF : ascii := ascii_of_N 10.
Definition TAB : ascii := ascii_of_N 9.

Definition str_eqb (a b : str) : bool :=
  if list_eq_dec ascii_dec a b then true else false.

(** [str.isspace] on one character, which is also the class [\s] of a
    [str] pattern: U+0009..U+000D, U+001C..U+0020, U+0085 and U+00A0. *)
Definition isspace (c : ascii) : bool :=
  let n := code c in
  ((9 <=? n) && (n <=? 13) || (28 <=? n) && (n <=? 32)
   || (n =? 133) || (n =? 160))%N.

(** The range [a-b] of a character class, bounds given as characters. *)
Definition in_range (lo hi c : ascii) : bool :=
  ((code lo <=? code c) && (code c <=? code hi))%N.

(** [\d] of a [str] pattern: below 256 the decimal digits are [0-9]. *)
Definition isdigit (c : ascii) : bool := in_range "0" "9" c.

Definition is_char (a c : ascii) : bool := Ascii.eqb a c.

(** [str.lstrip()], [str.rstrip()] and [str.strip()] without argument. *)
Fixpoint lstrip (s : str) : str :=
  match s with
  | [] => []
  | c :: s' => if isspace c then lstrip s' else s
  end.

Definition rstrip (s : str) : str := rev (lstrip (rev s)).

Definition strip (s : str) : str := rstrip (lstrip s).

(** [sep.join(parts)]. *)
Fixpoint join (sep : str) (parts : list str) : str :=
  match parts with
  | [] => []
  | [p] => p
  | p :: ps => p ++ sep ++ join sep ps
  end.

(** [text.split(sep)] for a separator of one character: the pieces of
    the text between the separators. *)
Fixpoint split_on (sep : ascii) (s : str) : list str :=
  match s with
  | [] => [[]]
  | c :: s' =>
      if is_char sep c then [] :: split_on sep s'
      else match split_on sep s' with
           | [] => [[c]]
           | w :: ws => (c :: w) :: ws
           end
  end.

(** ** Regular expressions

    The patterns of the program use character classes, concatenation,
    [+], [{7,}] and the anchors [^] and [$].  [bool(pattern.match(s))]
    only asks whether some match starting at the first character exists,
    so a pattern is modelled by the language it accepts. *)

Inductive regex : Type :=
| Fail : regex
| Eps : regex
| Class : (ascii -> bool) -> regex
| Cat : regex -> regex -> regex
| Alt : regex -> regex -> regex
| Star : regex -> regex.

(** [r+] *)
Definition Plus (r : regex) : regex := Cat r (Star r).

(** [r{n}] and [r{n,}] *)
Fixpoint Repeat (n : nat) (r : regex) : regex :=
  match n with
  | O => Eps
  | S n' => Cat r (Repeat n' r)
  end.

Definition AtLeast (n : nat) (r : regex) : regex := Cat (Repeat n r) (Star r).

(** [$] without [re.MULTILINE] holds at the end of the string and just
    before a line feed that is the last character of the string.  As the
    last item of a pattern it therefore consumes nothing or that one line
    feed. *)
Definition Dollar : regex := Alt Eps (Class (is_char LF)).

(** The language of a pattern. *)
Inductive Matches : regex -> str -> Prop :=
| MEps : Matches Eps []
| MClass : forall p c, p c = true -> Matches (Class p) [c]
| MCat : forall r1 r2 s1 s2,
    Matches r1 s1 -> Matches r2 s2 -> Matches (Cat r1 r2) (s1 ++ s2)
| MAltL : forall r1 r2 s, Matches r1 s -> Matches (Alt r1 r2) s
| MAltR : forall r1 r2 s, Matches r2 s -> Matches (Alt r1 r2) s
| MStarNil : forall r, Matches (Star r) []
| MStarCons : forall r s1 s2,
    Matches r s1 -> Matches (Star r) s2 -> Matches (Star r) (s1 ++ s2).

(** The matcher: Brzozowski derivatives. *)
Fixpoint nullable (r : regex) : bool :=
  match r with
  | Fail => false
  | Eps => true
  | Class _ => false
  | Cat r1 r2 => nullable r1 && nullable r2
  | Alt r1 r2 => nullable r1 || nullable r2
  | Star _ => true
  end.

Fixpoint deriv (c : ascii) (r : regex) : regex :=
  match r with
  | Fail => Fail
  | Eps => Fail
  | Class p => if p c then Eps else Fail
  | Cat r1 r2 =>
      if nullable r1
      then Alt (Cat (deriv c r1) r2) (deriv c r2)
      else Cat (deriv c r1) r2
  | Alt r1 r2 => Alt (deriv c r1) (deriv c r2)
  | Star r1 => Cat (deriv c r1) (Star r1)
  end.

(** [fullmatch r s]: the whole of [s] is in the language of [r]. *)
Fixpoint fullmatch (r : regex) (s : str) : bool :=
  match s with
  | [] => nullable r
  | c :: s' => fullmatch (deriv c r) s'
  end.

(** [bool(p.match(s))] for a pattern [^body$]: a match from the first
    character whose end satisfies [$]. *)
Definition re_match_anchored (body : regex) (s : str) : bool :=
  fullmatch (Cat body Dollar) s.

(** ** The patterns of the program *)

(** [[^@\s]] *)
Definition not_at_or_space (c : ascii) : bool :=
  negb (is_char "@" c || isspace c).

(** [[0-9\s\-\+\(\)]] *)
Definition phone_char (c : ascii) : bool :=
  in_range "0" "9" c || isspace c || is_char "-" c || is_char "+" c
  || is_char "(" c || is_char ")" c.

(** [EMAIL_RE = re.compile(r"^[^@\s]+@[^@\s]+\.[^@\s]+$")], between the
    anchors. *)
Definition EMAIL_RE : regex :=
  Cat (Plus (Class not_at_or_space))
    (Cat (Class (is_char "@"))
       (Cat (Plus (Class not_at_or_space))
          (Cat (Class (is_char "."))
             (Plus (Class not_at_or_space))))).

(** [PHONE_RE = re.compile(r"^[0-9\s\-\+\(\)]{7,}$")], between the
    anchors. *)
Definition PHONE_RE : regex := AtLeast 7 (Class phone_char).

(** ** [datetime.strptime(bday, "%Y-%m-%d")]

    [strptime] turns the format into a regular expression with one named
    group per directive, matches it at the start of the text, refuses a
    match that does not reach the end of the text, converts the groups
    with [int] and builds the date.  A group is an ordered choice between
    alternatives, tried from left to right with backtracking; here every
    alternative is a fixed sequence of character classes. *)

Definition alternative := list (ascii -> bool).

(** The text one alternative consumes at the head of [s], and the rest. *)
Fixpoint match_alternative (a : alternative) (s : str) : option (str * str) :=
  match a, s with
  | [], _ => Some ([], s)
  | p :: a', c :: s' =>
      if p c
      then match match_alternative a' s' with
           | Some (m, rest) => Some (c :: m, rest)
           | None => None
           end
      else None
  | _ :: _, [] => None
  end.

Section Backtracking.
Variable R : Type.

(** A named group followed by the rest of the pattern [k]: the first
    alternative after which [k] succeeds wins. *)
Fixpoint match_group (alts : list alternative)
    (k : str -> str -> option R) (s : str) : option R :=
  match alts with
  | [] => None
  | a :: alts' =>
      match match_alternative a s with
      | Some (m, rest) =>
          match k m rest with
          | Some r => Some r
          | None => match_group alts' k s
          end
      | None => match_group alts' k s
      end
  end.

(** A literal character of the format followed by [k]. *)
Definition match_literal (c : ascii) (k : str -> option R) (s : str)
  : option R :=
  match s with
  | c' :: s' => if is_char c c' then k s' else None
  | [] => None
  end.
End Backtracking.

(** [%Y]: [(?P<Y>\d\d\d\d)] *)
Definition directive_Y : list alternative :=
  [[isdigit; isdigit; isdigit; isdigit]].

(** [%m]: [(?P<m>1[0-2]|0[1-9]|[1-9])] *)
Definition directive_m : list alternative :=
  [[is_char "1"; in_range "0" "2"];
   [is_char "0"; in_range "1" "9"];
   [in_range "1" "9"]].

(** [%d]: [(?P<d>3[0-1]|[1-2]\d|0[1-9]|[1-9]| [1-9])] *)
Definition directive_d : list alternative :=
  [[is_char "3"; in_range "0" "1"];
   [in_range "1" "2"; isdigit];
   [is_char "0"; in_range "1" "9"];
   [in_range "1" "9"];
   [is_char " "; in_range "1" "9"]].

(** [format_regex.match(data_string)] for the format [%Y-%m-%d]: the
    groups Y, m, d and the text after the match. *)
Definition format_regex_match (s : str) : option (str * str * str * str) :=
  match_group directive_Y (fun y =>
    match_literal "-" (
      match_group directive_m (fun m =>
        match_literal "-" (
          match_group directive_d (fun d rest => Some (y, m, d, rest)))))) s.

(** [int(text)] on a group: optional surrounding whitespace, decimal
    digits. *)
Definition int (s : str) : N :=
  fold_left (fun acc c => (acc * 10 + (code c - 48))%N) (strip s) 0%N.

(** [datetime._is_leap] and [datetime._days_in_month]. *)
Definition _is_leap (year : N) : bool :=
  ((year mod 4 =? 0) && (negb (year mod 100 =? 0) || (year mod 400 =? 0)))%N.

Definition _DAYS_IN_MONTH : list N :=
  [0; 31; 28; 31; 30; 31; 30; 31; 31; 30; 31; 30; 31]%N.

Definition _days_in_month (year month : N) : N :=
  if ((month =? 2) && _is_leap year)%N then 29%N
  else nth (N.to_nat month) _DAYS_IN_MONTH 0%N.

(** The range checks of the [date] constructor ([MINYEAR = 1],
    [MAXYEAR = 9999]); a date outside them raises [ValueError]. *)
Definition valid_date (year month day : N) : bool :=
  ((1 <=? year) && (year <=? 9999) && (1 <=? month) && (month <=? 12)
   && (1 <=? day) && (day <=? _days_in_month year month))%N.

(** [datetime.strptime(s, "%Y-%m-%d")]: [Some (year, month, day)], or
    [None] where Python raises [ValueError]. *)
Definition strptime (s : str) : option (N * N * N) :=
  match format_regex_match s with
  | Some (y, m, d, []) =>
      let year := int y in
      let month := int m in
      let day := int d in
      if valid_date year month day then Some (year, month, day) else None
  | Some (_, _, _, _ :: _) => None      (* unconverted data remains *)
  | None => None                        (* does not match format *)
  end.

(** The rendering of a date in the format [YYYY-MM-DD] (what
    [strftime("%Y-%m-%d")] and [date.isoformat] give for four-digit
    years). *)
Definition digit_char (n : N) : ascii := ascii_of_N (48 + n mod 10).

Definition render_date (ymd : N * N * N) : str :=
  let '(y, m, d) := ymd in
  [digit_char (y / 1000); digit_char (y / 100); digit_char (y / 10);
   digit_char y]
  ++ lit "-" ++ [digit_char (m / 10); digit_char m]
  ++ lit "-" ++ [digit_char (d / 10); digit_char d].

(** ** Validation helpers *)

Definition _validate_name (name : str) : bool :=
  match strip name with [] => false | _ :: _ => true end.

Definition _validate_birthday (bday : str) : bool :=
  match strptime bday with Some _ => true | None => false end.

Definition _validate_email (email : str) : bool :=
  re_match_anchored EMAIL_RE email.

Definition _validate_phone (phone : str) : bool :=
  re_match_anchored PHONE_RE phone.

Definition _validate_address (address : str) : bool :=
  (0 <? List.length (strip address))%nat.

(** [contact in {"Email", "Phone", "Mail"}] *)
Definition CONTACTS : list str := [lit "Email"; lit "Phone"; lit "Mail"].

Definition contact_in_set (contact : str) : bool :=
  existsb (str_eqb contact) CONTACTS.

(** The violation messages.  Each starts with U+2022 (a bullet), written
    here as the three bytes of its UTF-8 form; messages are only
    displayed, never inspected. *)
Definition bullet : str := [ascii_of_N 226; ascii_of_N 128; ascii_of_N 162].

Definition MSG_NAME : str := bullet ++ lit " Name is required.".
Definition MSG_BIRTHDAY : str :=
  bullet ++ lit " Birthday must be in YYYY-MM-DD format (e.g., 2001-04-09).".
Definition MSG_EMAIL : str :=
  bullet ++ lit " Email appears invalid (e.g., name@example.com).".
Definition MSG_PHONE : str :=
  bullet ++
  lit " Phone appears invalid (allow digits, spaces, +, -, parentheses).".
Definition MSG_ADDRESS : str := bullet ++ lit " Address is required.".
Definition MSG_CONTACT : str :=
  bullet ++ lit " Preferred contact must be Email, Phone, or Mail.".

(** [errors.append(msg)] under [if not ok:] *)
Definition append_unless (ok : bool) (msg : str) (errors : list str)
  : list str :=
  if negb ok then errors ++ [msg] else errors.

(** The value of [errors] in [on_submit] after the six checks (lines
    169-181), as a function of the six stripped values. *)
Definition validate_all (name bday email phone address contact : str)
  : list str :=
  let errors := [] in
  let errors := append_unless (_validate_name name) MSG_NAME errors in
  let errors := append_unless (_validate_birthday bday) MSG_BIRTHDAY errors in
  let errors := append_unless (_validate_email email) MSG_EMAIL errors in
  let errors := append_unless (_validate_phone phone) MSG_PHONE errors in
  let errors := append_unless (_validate_address address) MSG_ADDRESS errors in
  let errors := append_unless (contact_in_set contact) MSG_CONTACT errors in
  errors.

(** ** The store: the table [customers] of [customer_info.db] *)

(** The mapping passed to [save_to_db]: the six named parameters of the
    INSERT statement. *)
Record customer_data : Type := CustomerData {
  name : str;
  birthday : str;
  email : str;
  phone : str;
  address : str;
  preferred_contact : str
}.

(** A stored row: the six columns and the two the backend assigns. *)
Record row : Type := Row {
  id : N;
  data : customer_data;
  created_at : str
}.

(** The table and the counter that AUTOINCREMENT keeps in
    [sqlite_sequence]. *)
Record table : Type := Table {
  rows : list row;
  sequence : N
}.

(** The database file: [None] until TABLE_SQL has created the table. *)
Definition database := option table.

Inductive db_error : Type :=
| UnableToOpen     (* OperationalError: unable to open database file *)
| DiskIOError      (* OperationalError: disk I/O error, disk full *)
| NoSuchTable      (* OperationalError: no such table: customers *)
| DatabaseFull     (* OperationalError: database or disk is full *)
| CheckFailed.     (* IntegrityError: CHECK constraint failed *)

Inductive result (A : Type) : Type :=
| Ok : A -> result A
| Raise : db_error -> result A.
Arguments Raise {A} _.

(** What the environment does during one call: where, if anywhere, the
    backend fails, and the value of CURRENT_TIMESTAMP. *)
Inductive io_fault : Type := NoFault | ConnectFails | ExecuteFails | CommitFails.

Record env : Type := Env {
  fault : io_fault;
  now : str
}.

(** A connection: the content of the file and, while a transaction is
    open, the uncommitted content the connection sees. *)
Record connection : Type := Connection {
  file : database;
  txn : option database
}.

Definition connect (e : env) (db : database) : result connection :=
  match fault e with
  | ConnectFails => Raise UnableToOpen
  | _ => Ok (Connection db None)
  end.

Definition view (con : connection) : database :=
  match txn con with
  | Some w => w
  | None => file con
  end.

(** [con.commit()], [con.rollback()], [con.close()].  A commit that
    fails leaves the file as it was; closing drops what is uncommitted. *)
Definition commit (e : env) (con : connection) : result unit * connection :=
  match txn con with
  | None => (Ok tt, con)
  | Some w =>
      match fault e with
      | CommitFails => (Raise DiskIOError, con)
      | _ => (Ok tt, Connection w None)
      end
  end.

Definition rollback (con : connection) : connection :=
  Connection (file con) None.

Definition close (con : connection) : database := file con.

(** [preferred_contact IN ('Email','Phone','Mail')] *)
Definition check_preferred_contact (d : customer_data) : bool :=
  existsb (str_eqb (preferred_contact d)) [lit "Email"; lit "Phone"; lit "Mail"].

(** The rowid AUTOINCREMENT gives: one more than the largest rowid the
    table ever held. *)
Definition next_id (t : table) : N :=
  (N.max (sequence t) (fold_right N.max 0 (map id (rows t))) + 1)%N.

(** Rowids are 64-bit signed integers.  Once the largest one has been
    used, AUTOINCREMENT has no rowid left to give. *)
Definition MAX_ROWID : N := 9223372036854775807.

Definition table_full (t : table) : bool := (MAX_ROWID <? next_id t)%N.

(** The INSERT statement on the content [db].  The new rowid is chosen
    first: on a full table the statement fails with SQLITE_FULL before any
    constraint is evaluated.  Then the CHECK constraint of TABLE_SQL is
    evaluated on the new row; the six values are strings, so the NOT NULL
    constraints hold. *)
Definition sql_insert (e : env) (d : customer_data) (db : database)
  : result database :=
  match db with
  | None => Raise NoSuchTable
  | Some t =>
      if table_full t then Raise DatabaseFull
      else if check_preferred_contact d
      then let i := next_id t in
           Ok (Some (Table (rows t ++ [Row i d (now e)]) i))
      else Raise CheckFailed
  end.

(** [CREATE TABLE IF NOT EXISTS customers (...)] *)
Definition sql_create_table (db : database) : database :=
  match db with
  | None => Some (Table [] 0)
  | Some t => Some t
  end.

(** [con.execute(INSERT ...)]: the module opens a transaction before
    the statement; a statement that fails changes nothing. *)
Definition execute_insert (e : env) (d : customer_data) (con : connection)
  : result unit * connection :=
  let con := Connection (file con) (Some (view con)) in
  match fault e with
  | ExecuteFails => (Raise DiskIOError, con)
  | _ =>
      match sql_insert e d (view con) with
      | Ok w => (Ok tt, Connection (file con) (Some w))
      | Raise err => (Raise err, con)
      end
  end.

(** [con.execute(TABLE_SQL)]: a CREATE TABLE statement opens no
    transaction; outside one it is written at once. *)
Definition execute_create (e : env) (con : connection)
  : result unit * connection :=
  match fault e with
  | ExecuteFails => (Raise DiskIOError, con)
  | _ =>
      match txn con with
      | Some w => (Ok tt, Connection (file con) (Some (sql_create_table w)))
      | None => (Ok tt, Connection (sql_create_table (file con)) None)
      end
  end.

(** [with con: body]: commit when the body returns, roll back when it
    (or the commit) raises. *)
Definition with_con (e : env) (body : connection -> result unit * connection)
    (con : connection) : result unit * connection :=
  match body con with
  | (Ok _, con1) =>
      match commit e con1 with
      | (Ok _, con2) => (Ok tt, con2)
      | (Raise err, con2) => (Raise err, rollback con2)
      end
  | (Raise err, con1) => (Raise err, rollback con1)
  end.

(** [init_db()] *)
Definition init_db (e : env) (db : database) : result unit * database :=
  match connect e db with
  | Raise err => (Raise err, db)
  | Ok con =>
      match execute_create e con with
      | (Ok _, con1) =>
          let (r, con2) := commit e con1 in (r, close con2)
      | (Raise err, con1) => (Raise err, close con1)
      end
  end.

(** [CustomerApp.save_to_db(data)] *)
Definition save_to_db (e : env) (d : customer_data) (db : database)
  : result unit * database :=
  match connect e db with
  | Raise err => (Raise err, db)
  | Ok con =>
      let (r, con1) := with_con e (execute_insert e d) con in
      (r, close con1)
  end.

(** ** The form and its actions *)

(** The bound variables of the form and the content of the address
    box. *)
Record form : Type := Form {
  var_name : str;
  var_bday : str;
  var_email : str;
  var_phone : str;
  txt_address : str;
  var_contact : str
}.

(** [self.txt_address.get("1.0", "end")]: the content and the line feed
    a Text widget keeps after it. *)
Definition txt_address_get (f : form) : str := txt_address f ++ [LF].

(** [clear_form()] *)
Definition clear_form (f : form) : form :=
  Form [] [] [] [] [] (lit "Email").

(** What [on_submit] does besides changing the form and the file. *)
Inductive event : Type :=
| showerror : str -> str -> event       (* messagebox.showerror(title, text) *)
| showinfo : str -> str -> event        (* messagebox.showinfo(title, text) *)
| call_save_to_db : customer_data -> event
| call_clear_form : event.

(** [str(e)] for the exceptions of the store. *)
Definition error_text (err : db_error) : str :=
  match err with
  | UnableToOpen => lit "unable to open database file"
  | DiskIOError => lit "disk I/O error"
  | NoSuchTable => lit "no such table: customers"
  | DatabaseFull => lit "database or disk is full"
  | CheckFailed => lit "CHECK constraint failed: preferred_contact IN ('Email','Phone','Mail')"
  end.

(** The six values [on_submit] reads from the form. *)
Definition stripped (f : form) : customer_data :=
  CustomerData (strip (var_name f)) (strip (var_bday f))
    (strip (var_email f)) (strip (var_phone f))
    (strip (txt_address_get f)) (strip (var_contact f)).

(** [CustomerApp.on_submit()]: the calls made, the form and the file
    afterwards. *)
Definition on_submit (e : env) (f : form) (db : database)
  : list event * form * database :=
  let d := stripped f in
  let errors :=
    validate_all (name d) (birthday d) (email d) (phone d) (address d)
      (preferred_contact d) in
  match errors with
  | _ :: _ =>
      ([showerror (lit "Please fix the following") (join [LF] errors)], f, db)
  | [] =>
      match save_to_db e d db with
      | (Ok _, db') =>
          ([call_save_to_db d;
            showinfo (lit "Success") (lit "Customer information saved.");
            call_clear_form],
           clear_form f, db')
      | (Raise err, db') =>
          ([call_save_to_db d;
            showerror (lit "Error")
              (lit "Could not save data:" ++ [LF] ++ error_text err)],
           f, db')
      end
  end.

(** The program as a transition system: [main] runs [init_db], then the
    user edits the form and presses Submit or Clear, any number of times,
    and may start the program again. *)
Inductive action : Type :=
| InitDb : action
| Edit : form -> action
| Submit : action
| Clear : action.

Record state : Type := State {
  st_form : form;
  st_db : database
}.

Definition step (e : env) (a : action) (s : state) : state :=
  match a with
  | InitDb => State (st_form s) (snd (init_db e (st_db s)))
  | Edit f => State f (st_db s)
  | Submit =>
      let '(_, f', db') := on_submit e (st_form s) (st_db s) in State f' db'
  | Clear => State (clear_form (st_form s)) (st_db s)
  end.

Inductive reachable : state -> Prop :=
| reach_start : forall f, reachable (State f None)
| reach_step : forall e a s, reachable s -> reachable (step e a s).

(** ** The properties as the specification words them *)

(** A character that is neither [@] nor whitespace. *)
Definition plain_char (c : ascii) : Prop :=
  c <> "@"%char /\ isspace c = false.

(** One or more plain characters, [@], one or more plain characters, [.],
    one or more plain characters, and nothing else. *)
Definition spec_email_shape (s : str) : Prop :=
  exists a b c : str,
    s = a ++ lit "@" ++ b ++ lit "." ++ c /\
    a <> [] /\ b <> [] /\ c <> [] /\
    Forall plain_char a /\ Forall plain_char b /\ Forall plain_char c.

(** A character of [{digit, space, +, -, (, )}]. *)
Definition spec_phone_char (c : ascii) : Prop :=
  isdigit c = true \/ c = " "%char \/ c = "+"%char \/ c = "-"%char
  \/ c = "("%char \/ c = ")"%char.

Definition spec_phone_shape (s : str) : Prop :=
  Forall spec_phone_char s /\ 7 <= List.length s.

(** The class the pattern of the program has: any whitespace in the
    place of the space. *)
Definition phone_class (c : ascii) : Prop :=
  isdigit c = true \/ isspace c = true \/ c = "+"%char \/ c = "-"%char
  \/ c = "("%char \/ c = ")"%char.

(** The [YYYY-MM-DD] rendering of some valid calendar date. *)
Definition spec_birthday_shape (s : str) : Prop :=
  exists y m d : N, valid_date y m d = true /\ s = render_date (y, m, d).

(** The texts the directives [%Y], [%m] and [%d] take for a year, a
    month and a day: four digits; two digits, or one for a month before
    October; two digits, or, for a day before the tenth, one digit or a
    space and one digit. *)
Definition year_text (y : N) : str :=
  [digit_char (y / 1000); digit_char (y / 100); digit_char (y / 10);
   digit_char y].

Definition pad2 (n : N) : str := [digit_char (n / 10); digit_char n].

Definition month_texts (m : N) : list str :=
  pad2 m :: (if (m <? 10)%N then [[digit_char m]] else []).

Definition day_texts (d : N) : list str :=
  pad2 d ::
  (if (d <? 10)%N then [[digit_char d]; [" "%char; digit_char d]] else []).

Definition accepted_birthday_shape (s : str) : Prop :=
  exists (y m d : N) (M D : str),
    valid_date y m d = true /\
    In M (month_texts m) /\ In D (day_texts d) /\
    s = year_text y ++ lit "-" ++ M ++ lit "-" ++ D.

(** The field constraints of the data model on the six stored columns;
    the birthday is an ISO date [YYYY-MM-DD]. *)
Definition field_constraints (d : customer_data) : Prop :=
  strip (name d) <> [] /\
  spec_birthday_shape (birthday d) /\
  Matches EMAIL_RE (email d) /\
  Matches PHONE_RE (phone d) /\
  strip (address d) <> [] /\
  In (preferred_contact d) CONTACTS.

(** What the six checks of [on_submit] secure of a stored row: the same,
    except that the birthday may lack the zero padding. *)
Definition checked_constraints (d : customer_data) : Prop :=
  strip (name d) <> [] /\
  accepted_birthday_shape (birthday d) /\
  Matches EMAIL_RE (email d) /\
  Matches PHONE_RE (phone d) /\
  strip (address d) <> [] /\
  In (preferred_contact d) CONTACTS.

Definition table_ok (db : database) : Prop :=
  match db with
  | None => True
  | Some t => Forall (fun r => field_constraints (data r)) (rows t)
  end.

(** The rows of a database (none while the table is absent). *)
Definition db_rows (db : database) : list row :=
  match db with
  | None => []
  | Some t => rows t
  end.

(** The checks of [on_submit] and their messages, in the order of the
    fields. *)
Definition checks (d : customer_data) : list (bool * str) :=
  [(_validate_name (name d), MSG_NAME);
   (_validate_birthday (birthday d), MSG_BIRTHDAY);
   (_validate_email (email d), MSG_EMAIL);
   (_validate_phone (phone d), MSG_PHONE);
   (_validate_address (address d), MSG_ADDRESS);
   (contact_in_set (preferred_contact d), MSG_CONTACT)].

Definition errors_of (d : customer_data) : list str :=
  validate_all (name d) (birthday d) (email d) (phone d) (address d)
    (preferred_contact d).



(** Sample inputs. *)
Definition all_invalid : customer_data :=
  CustomerData (lit "") (lit "1990-13-40") (lit "bad") (lit "123") (lit "")
    (lit "Fax").

Definition all_invalid_form : form :=
  Form (lit "") (lit "1990-13-40") (lit "bad") (lit "123") (lit "")
    (lit "Fax").

Definition jane : form :=
  Form (lit "Jane Doe") (lit "1990-05-12") (lit "jane@example.com")
    (lit "555-123-4567") (lit "1 Main St") (lit "Email").


Definition quiet : env := Env NoFault (lit "2024-01-01 00:00:00").

Definition empty_table : table := Table [] 0.

(** The state after [init_db] and one accepted submission. *)
Definition after_jane : state :=
  step quiet Submit (step quiet InitDb (State jane None)).

(** ** The program from [main] on *)

(** [CustomerApp.__init__]: the variables of a new form; [var_contact]
    starts at [Email]. *)
Definition new_form : form := Form [] [] [] [] [] (lit "Email").

(** The values of the contact combobox.  Its state is [readonly]: the
    user picks one of the values and cannot type another. *)
Definition COMBO_VALUES : list str := [lit "Email"; lit "Phone"; lit "Mail"].

(** Whether [tk.Tk()] and the construction of the window succeed; they
    raise, for instance, where there is no display. *)
Inductive gui_outcome : Type := GuiOk | GuiFails.

(** How [main] goes on after its first lines. *)
Inductive main_result : Type :=
| StoreRaised : db_error -> main_result   (* [init_db()] raised *)
| WindowRaised : main_result              (* [tk.Tk()] or [CustomerApp(root)] raised *)
| WindowOpen : state -> main_result.      (* [root.mainloop()] runs on this state *)

(** [main()]: [init_db()], then the window with a new form.  [main]
    catches neither an exception of [init_db], which ends the program
    before anything else happens, nor one of the construction of the
    window, which ends it after [init_db] has returned; only the choice of
    the theme is inside [try]. *)
Definition main (e : env) (g : gui_outcome) (db : database)
  : main_result * database :=
  match init_db e db with
  | (Raise err, db') => (StoreRaised err, db')
  | (Ok _, db') =>
      match g with
      | GuiFails => (WindowRaised, db')
      | GuiOk => (WindowOpen (State new_form db'), db')
      end
  end.

(** Typing into the four entries and the address box, and picking a
    value of the combobox. *)
Definition type_fields (n b e p a : str) (f : form) : form :=
  Form n b e p a (var_contact f).

Definition select_contact (c : str) (f : form) : form :=
  Form (var_name f) (var_bday f) (var_email f) (var_phone f) (txt_address f)
    c.

(** The states of one run of the window that started in [s0]: the user
    types, picks a contact, presses Submit or Clear. *)
Inductive session (s0 : state) : state -> Prop :=
| session_start : session s0 s0
| session_type : forall s n b e p a,
    session s0 s ->
    session s0 (State (type_fields n b e p a (st_form s)) (st_db s))
| session_select : forall s c,
    session s0 s -> In c COMBO_VALUES ->
    session s0 (State (select_contact c (st_form s)) (st_db s))
| session_submit : forall s e,
    session s0 s -> session s0 (step e Submit s)
| session_clear : forall s e,
    session s0 s -> session s0 (step e Clear s).

(** ** Further notions used in the results *)

(** The six columns of a row hold no leading or trailing whitespace. *)
Definition is_stripped (s : str) : Prop := strip s = s.

Definition data_stripped (d : customer_data) : Prop :=
  is_stripped (name d) /\ is_stripped (birthday d) /\ is_stripped (email d) /\
  is_stripped (phone d) /\ is_stripped (address d) /\
  is_stripped (preferred_contact d).

(** The ids [1, 2, ..., n]. *)
Definition ids_from_one (n : nat) : list N := map N.of_nat (seq 1 n).

(** Sample inputs for the results below. *)
Definition padded_text : str := lit "  a b " ++ [LF].

Definition two_rows : table :=
  Table [Row 1 (stripped jane) (now quiet); Row 2 (stripped jane) (now quiet)]
    2.

Definition empty_name_data : customer_data :=
  CustomerData [] [] [] [] [] (lit "Mail").

(** A form that is in order except that month and day of the birthday
    lack the leading zero, and the state after [init_db] and its
    submission. *)
Definition unpadded_form : form :=
  Form (lit "Jane Doe") (lit "2001-4-9") (lit "jane@example.com")
    (lit "555-123-4567") (lit "1 Main St") (lit "Email").

Definition after_unpadded : state :=
  step quiet Submit (step quiet InitDb (State unpadded_form None)).

(** A table that has used its last rowid. *)
Definition full_table : table := Table [] MAX_ROWID.

(** * Results *)

(** ** Regular expressions: the matcher decides the language *)

Lemma Matches_Fail (s : str) : ~ Matches Fail s.
Proof. intro H; inversion H. Qed.

Lemma Matches_Eps (s : str) : Matches Eps s <-> s = [].
Proof.
  split; intro H; [inversion H; reflexivity | subst; constructor].
Qed.

Lemma Matches_Class (p : ascii -> bool) (s : str) :
  Matches (Class p) s <-> exists c, s = [c] /\ p c = true.
Proof.
  split; intro H.
  - inversion H; subst; eauto.
  - destruct H as (c & -> & H); constructor; assumption.
Qed.

Lemma Matches_Cat (r1 r2 : regex) (s : str) :
  Matches (Cat r1 r2) s <->
  exists s1 s2, s = s1 ++ s2 /\ Matches r1 s1 /\ Matches r2 s2.
Proof.
  split; intro H.
  - inversion H; subst; eauto.
  - destruct H as (s1 & s2 & -> & H1 & H2); constructor; assumption.
Qed.

Lemma Matches_Alt (r1 r2 : regex) (s : str) :
  Matches (Alt r1 r2) s <-> Matches r1 s \/ Matches r2 s.
Proof.
  split; intro H.
  - inversion H; subst; auto.
  - destruct H; [apply MAltL | apply MAltR]; assumption.
Qed.

Lemma Matches_Star_cons (r : regex) (c : ascii) (s : str) :
  Matches (Star r) (c :: s) ->
  exists s1 s2, s = s1 ++ s2 /\ Matches r (c :: s1) /\ Matches (Star r) s2.
Proof.
  intro H. remember (Star r) as r' eqn:Er. remember (c :: s) as t eqn:Et.
  revert s Et.
  induction H as [| | | | | r0 | r0 u1 u2 H1 IH1 H2 IH2]; intros w Et;
    try congruence.
  injection Er as ->.
  destruct u1 as [| c1 u1'].
  - simpl in Et. apply IH2; auto.
  - simpl in Et. injection Et as -> <-.
    exists u1', u2. auto.
Qed.

Lemma nullable_Matches (r : regex) : nullable r = true <-> Matches r [].
Proof.
  induction r; simpl.
  - split; [discriminate | intro H; inversion H].
  - split; [constructor | reflexivity].
  - split; [discriminate | intro H; inversion H].
  - rewrite andb_true_iff, IHr1, IHr2, Matches_Cat. split.
    + intros [H1 H2]. exists [], []. auto.
    + intros (s1 & s2 & E & H1 & H2). symmetry in E.
      apply app_eq_nil in E as [-> ->]. auto.
  - rewrite orb_true_iff, IHr1, IHr2, Matches_Alt. reflexivity.
  - split; [constructor | reflexivity].
Qed.

Lemma deriv_Matches (r : regex) :
  forall c s, Matches (deriv c r) s <-> Matches r (c :: s).
Proof.
  induction r as [| | p | r1 IH1 r2 IH2 | r1 IH1 r2 IH2 | r IH];
    intros c s; simpl.
  - split; intro H; inversion H.
  - split; intro H; inversion H.
  - rewrite Matches_Class. destruct (p c) eqn:Ep.
    + rewrite Matches_Eps. split.
      * intros ->. exists c. auto.
      * intros (c' & E & _). injection E as _ E. assumption.
    + split; [intro H; inversion H |].
      intros (c' & E & Hp). injection E as -> _. congruence.
  - assert (Hcat : Matches (Cat (deriv c r1) r2) s <->
                   exists s1 s2, s = s1 ++ s2 /\ Matches r1 (c :: s1)
                                 /\ Matches r2 s2).
    { rewrite Matches_Cat. split; intros (s1 & s2 & E & H1 & H2);
        exists s1, s2; (split; [assumption |]); split; try assumption;
        apply IH1; assumption. }
    assert (Hsplit : Matches (Cat r1 r2) (c :: s) <->
              (exists s1 s2, s = s1 ++ s2 /\ Matches r1 (c :: s1)
                             /\ Matches r2 s2)
              \/ (Matches r1 [] /\ Matches r2 (c :: s))).
    { rewrite Matches_Cat. split.
      - intros (s1 & s2 & E & H1 & H2). destruct s1 as [| c1 s1'].
        + right. simpl in E. subst. auto.
        + left. simpl in E. injection E as <- ->. eauto.
      - intros [(s1 & s2 & -> & H1 & H2) | [H1 H2]].
        + exists (c :: s1), s2. auto.
        + exists [], (c :: s). auto. }
    rewrite Hsplit. destruct (nullable r1) eqn:En.
    + rewrite Matches_Alt, Hcat, IH2.
      apply nullable_Matches in En. tauto.
    + rewrite Hcat. split; [tauto |].
      intros [H | [H _]]; [assumption |].
      apply nullable_Matches in H. congruence.
  - rewrite !Matches_Alt, IH1, IH2. reflexivity.
  - rewrite Matches_Cat. split.
    + intros (s1 & s2 & -> & H1 & H2).
      change (c :: s1 ++ s2) with ((c :: s1) ++ s2).
      constructor; [apply IH |]; assumption.
    + intro H. apply Matches_Star_cons in H as (s1 & s2 & -> & M1 & M2).
      exists s1, s2. split; [reflexivity |]. split; [apply IH |]; assumption.
Qed.

Lemma fullmatch_Matches (s : str) :
  forall r, fullmatch r s = true <-> Matches r s.
Proof.
  induction s as [| c s IH]; intro r; simpl.
  - apply nullable_Matches.
  - rewrite IH. apply deriv_Matches.
Qed.

(** Repetitions of one character class. *)

Lemma Matches_Star_Class (p : ascii -> bool) (s : str) :
  Matches (Star (Class p)) s <-> forallb p s = true.
Proof.
  split.
  - intro H. remember (Star (Class p)) as r eqn:E.
    induction H as [| | | | | r0 | r0 u1 u2 H1 _ H2 IH2]; try congruence.
    + reflexivity.
    + injection E as ->. apply Matches_Class in H1 as (c & -> & Hc).
      simpl. rewrite Hc. apply IH2. reflexivity.
  - induction s as [| c s IH]; simpl; intro H.
    + constructor.
    + apply andb_true_iff in H as [Hc Hs].
      change (c :: s) with ([c] ++ s).
      constructor; [constructor; assumption | apply IH; assumption].
Qed.

Lemma Matches_Plus_Class (p : ascii -> bool) (s : str) :
  Matches (Plus (Class p)) s <-> s <> [] /\ forallb p s = true.
Proof.
  unfold Plus. rewrite Matches_Cat. split.
  - intros (s1 & s2 & -> & H1 & H2).
    apply Matches_Class in H1 as (c & -> & Hc).
    apply Matches_Star_Class in H2. simpl. rewrite Hc, H2.
    split; [discriminate | reflexivity].
  - intros [Hne H]. destruct s as [| c s]; [congruence |].
    simpl in H. apply andb_true_iff in H as [Hc Hs].
    exists [c], s. split; [reflexivity |].
    split; [constructor; assumption | apply Matches_Star_Class; assumption].
Qed.

Lemma Matches_Repeat_Class (p : ascii -> bool) (n : nat) :
  forall s, Matches (Repeat n (Class p)) s <->
            List.length s = n /\ forallb p s = true.
Proof.
  induction n as [| n IH]; intro s; simpl.
  - rewrite Matches_Eps. split.
    + intros ->. auto.
    + intros [H _]. destruct s; [reflexivity | discriminate].
  - rewrite Matches_Cat. split.
    + intros (s1 & s2 & -> & H1 & H2).
      apply Matches_Class in H1 as (c & -> & Hc).
      apply IH in H2 as [Hl Hs]. simpl. rewrite Hc, Hs, Hl. auto.
    + intros [Hl H]. destruct s as [| c s]; [discriminate |].
      simpl in Hl, H. apply andb_true_iff in H as [Hc Hs].
      exists [c], s. split; [reflexivity |].
      split; [constructor; assumption | apply IH; split; [lia | assumption]].
Qed.

Lemma Matches_AtLeast_Class (p : ascii -> bool) (n : nat) (s : str) :
  Matches (AtLeast n (Class p)) s <->
  n <= List.length s /\ forallb p s = true.
Proof.
  unfold AtLeast. rewrite Matches_Cat. split.
  - intros (s1 & s2 & -> & H1 & H2).
    apply Matches_Repeat_Class in H1 as [Hl H1].
    apply Matches_Star_Class in H2.
    rewrite length_app, forallb_app, H1, H2. split; [lia | reflexivity].
  - intros [Hl H]. exists (firstn n s), (skipn n s).
    rewrite <- (firstn_skipn n s) in H. rewrite forallb_app in H.
    apply andb_true_iff in H as [H1 H2].
    split; [symmetry; apply firstn_skipn |].
    split; [apply Matches_Repeat_Class | apply Matches_Star_Class; assumption].
    split; [apply firstn_length_le; assumption | assumption].
Qed.

Lemma is_char_eq (a c : ascii) : is_char a c = true <-> c = a.
Proof.
  unfold is_char. rewrite Ascii.eqb_eq. split; congruence.
Qed.

Lemma Matches_Dollar (r : regex) (s : str) :
  Matches (Cat r Dollar) s <->
  Matches r s \/ exists s', s = s' ++ [LF] /\ Matches r s'.
Proof.
  rewrite Matches_Cat. unfold Dollar. split.
  - intros (s1 & s2 & -> & H1 & H2). apply Matches_Alt in H2 as [H2 | H2].
    + apply Matches_Eps in H2 as ->. rewrite app_nil_r. auto.
    + apply Matches_Class in H2 as (c & -> & Hc).
      apply is_char_eq in Hc as ->. right. eauto.
  - intros [H | (s' & -> & H)].
    + exists s, []. rewrite app_nil_r.
      split; [reflexivity |]. split; [assumption |].
      apply MAltL. constructor.
    + exists s', [LF]. split; [reflexivity |]. split; [assumption |].
      apply MAltR. constructor. apply is_char_eq. reflexivity.
Qed.

Lemma re_match_anchored_spec (r : regex) (s : str) :
  re_match_anchored r s = true <->
  Matches r s \/ exists s', s = s' ++ [LF] /\ Matches r s'.
Proof.
  unfold re_match_anchored. rewrite fullmatch_Matches. apply Matches_Dollar.
Qed.

(** ** Stripping *)

Lemma lstrip_spaces (l s : str) :
  forallb isspace l = true -> lstrip (l ++ s) = lstrip s.
Proof.
  induction l as [| c l IH]; simpl; intro H; [reflexivity |].
  apply andb_true_iff in H as [Hc Hl]. rewrite Hc. apply IH. assumption.
Qed.

Lemma lstrip_all_spaces (l : str) :
  forallb isspace l = true -> lstrip l = [].
Proof.
  intro H. rewrite <- (app_nil_r l). rewrite lstrip_spaces by assumption.
  reflexivity.
Qed.

Lemma lstrip_head (s t : str) (c : ascii) :
  lstrip s = c :: t -> isspace c = false.
Proof.
  induction s as [| a s IH]; simpl; [discriminate |].
  destruct (isspace a) eqn:Ea; [exact IH |].
  intro E. injection E as <- _. assumption.
Qed.


Lemma rstrip_last (s t : str) (c : ascii) :
  rstrip s = t ++ [c] -> isspace c = false.
Proof.
  unfold rstrip. intro E.
  apply (f_equal (@rev ascii)) in E.
  rewrite rev_involutive, rev_app_distr in E. simpl in E.
  eapply lstrip_head. eassumption.
Qed.

Lemma strip_last (s t : str) (c : ascii) :
  strip s = t ++ [c] -> isspace c = false.
Proof. unfold strip. apply rstrip_last. Qed.





(** ** The two patterns *)

Lemma not_at_or_space_plain (c : ascii) :
  not_at_or_space c = true <-> plain_char c.
Proof.
  unfold not_at_or_space, plain_char.
  rewrite negb_true_iff, orb_false_iff. split; intros [H1 H2]; split;
    try assumption.
  - intros ->. unfold is_char in H1. rewrite Ascii.eqb_refl in H1.
    discriminate.
  - destruct (is_char "@" c) eqn:E; [| reflexivity].
    apply is_char_eq in E. contradiction.
Qed.

Lemma forallb_plain (s : str) :
  forallb not_at_or_space s = true <-> Forall plain_char s.
Proof.
  rewrite forallb_forall, Forall_forall.
  split; intros H x Hx; apply not_at_or_space_plain, H, Hx.
Qed.

Lemma EMAIL_RE_shape (s : str) : Matches EMAIL_RE s <-> spec_email_shape s.
Proof.
  unfold EMAIL_RE, spec_email_shape. split.
  - intro H.
    apply Matches_Cat in H as (a & s1 & -> & Ha & H).
    apply Matches_Cat in H as (x & s2 & -> & Hx & H).
    apply Matches_Cat in H as (b & s3 & -> & Hb & H).
    apply Matches_Cat in H as (y & c & -> & Hy & Hc).
    apply Matches_Class in Hx as (cx & -> & Hx). apply is_char_eq in Hx as ->.
    apply Matches_Class in Hy as (cy & -> & Hy). apply is_char_eq in Hy as ->.
    apply Matches_Plus_Class in Ha as [Ha1 Ha2].
    apply Matches_Plus_Class in Hb as [Hb1 Hb2].
    apply Matches_Plus_Class in Hc as [Hc1 Hc2].
    exists a, b, c. rewrite <- !forallb_plain. auto 10.
  - intros (a & b & c & -> & Ha & Hb & Hc & Fa & Fb & Fc).
    rewrite <- forallb_plain in Fa, Fb, Fc.
    repeat (constructor; try (apply Matches_Plus_Class; split; assumption);
            try (apply is_char_eq; reflexivity)).
Qed.

Lemma validate_email_iff (s : str) :
  _validate_email s = true <->
  spec_email_shape s \/ exists s', s = s' ++ [LF] /\ spec_email_shape s'.
Proof.
  unfold _validate_email. rewrite re_match_anchored_spec, EMAIL_RE_shape.
  split; (intros [H | (s' & E & H)]; [left; assumption | right]);
    exists s'; (split; [assumption |]); apply EMAIL_RE_shape; assumption.
Qed.

Lemma spec_email_shape_last (s : str) :
  spec_email_shape s -> exists t c, s = t ++ [c] /\ isspace c = false.
Proof.
  intros (a & b & c & -> & _ & _ & Hc & _ & _ & Fc).
  destruct (exists_last Hc) as (c' & x & ->).
  apply Forall_app in Fc as [_ Fx]. inversion Fx as [| ? ? [_ Hx] _]; subst.
  exists (a ++ lit "@" ++ b ++ lit "." ++ c'), x.
  split; [| assumption]. rewrite <- !app_assoc. reflexivity.
Qed.

(** On a stripped text the email check is the whole-text pattern. *)
Lemma validate_email_stripped (x : str) :
  _validate_email (strip x) = true <-> spec_email_shape (strip x).
Proof.
  rewrite validate_email_iff. split; [| auto].
  intros [H | (s' & E & _)]; [assumption |].
  apply strip_last in E. discriminate.
Qed.

Lemma phone_char_class (c : ascii) : phone_char c = true <-> phone_class c.
Proof.
  unfold phone_char, phone_class, isdigit.
  rewrite !orb_true_iff, !is_char_eq. tauto.
Qed.

Lemma forallb_phone (s : str) :
  forallb phone_char s = true <-> Forall phone_class s.
Proof.
  rewrite forallb_forall, Forall_forall.
  split; intros H x Hx; apply phone_char_class, H, Hx.
Qed.

Lemma PHONE_RE_shape (s : str) :
  Matches PHONE_RE s <-> Forall phone_class s /\ 7 <= List.length s.
Proof.
  unfold PHONE_RE. rewrite Matches_AtLeast_Class, forallb_phone. tauto.
Qed.

Lemma validate_phone_iff (s : str) :
  _validate_phone s = true <-> Matches PHONE_RE s.
Proof.
  unfold _validate_phone. rewrite re_match_anchored_spec.
  split; [| auto]. intros [H | (s' & -> & H)]; [assumption |].
  apply PHONE_RE_shape in H as [HF Hl]. apply PHONE_RE_shape.
  split.
  - apply Forall_app. split; [assumption |].
    constructor; [| constructor]. right. left. reflexivity.
  - rewrite length_app. simpl. lia.
Qed.

(** ** Email *)

(** C4, as stated, fails: the text [a@b.co] followed by one line feed is
    accepted by [_validate_email], although it does not have the shape
    plain+ [@] plain+ [.] plain+ as a whole ([$] also holds just before a
    final line feed). *)
Lemma validate_email_trailing_newline :
  _validate_email (lit "a@b.co" ++ [LF]) = true /\
  ~ spec_email_shape (lit "a@b.co" ++ [LF]).
Proof.
  split; [reflexivity |].
  intro H. apply EMAIL_RE_shape, fullmatch_Matches in H.
  vm_compute in H. discriminate.
Qed.

(** C4 (amended): [_validate_email s] is true exactly when [s], or [s]
    without one final line feed, consists of one or more characters other
    than [@] and whitespace, then [@], then one or more such characters,
    then [.], then one or more such characters; on a stripped text, which
    is all [on_submit] passes, that is the whole-text pattern.
    [a@b.co] is accepted, [a@b] and [a b@c.d] are rejected. *)
Theorem validate_email_shape :
  (forall s : str,
      _validate_email s = true <->
      spec_email_shape s \/
      exists s', s = s' ++ [LF] /\ spec_email_shape s') /\
  (forall x : str,
      _validate_email (strip x) = true <-> spec_email_shape (strip x)) /\
  _validate_email (lit "a@b.co") = true /\
  _validate_email (lit "a@b") = false /\
  _validate_email (lit "a b@c.d") = false.
Proof.
  split; [exact validate_email_iff |].
  split; [exact validate_email_stripped |].
  repeat split.
Qed.

(** ** Phone *)

(** C5, as stated, fails: [123<TAB>4567] is accepted by
    [_validate_phone], although a tab is none of digit, space, [+], [-],
    [(], [)]. *)
Lemma validate_phone_accepts_tab :
  _validate_phone (lit "123" ++ [TAB] ++ lit "4567") = true /\
  ~ spec_phone_shape (lit "123" ++ [TAB] ++ lit "4567").
Proof.
  split; [reflexivity |].
  intros [H _]. rewrite Forall_forall in H.
  assert (Hin : In TAB (lit "123" ++ [TAB] ++ lit "4567"))
    by (simpl; tauto).
  destruct (H TAB Hin) as [D | [D | [D | [D | [D | D]]]]];
    vm_compute in D; discriminate.
Qed.

(** C5 (amended): [_validate_phone s] is true exactly when every
    character of [s] is a digit [0-9], a whitespace character (the class
    [\s], not only the space), [+], [-], [(] or [)], and [s] has at least
    7 characters.  [123-456-7890] is accepted, [12345] and [12a4567] are
    rejected. *)
Theorem validate_phone_shape :
  (forall s : str,
      _validate_phone s = true <->
      Forall phone_class s /\ 7 <= List.length s) /\
  _validate_phone (lit "123-456-7890") = true /\
  _validate_phone (lit "12345") = false /\
  _validate_phone (lit "12a4567") = false.
Proof.
  split.
  - intro s. rewrite validate_phone_iff. apply PHONE_RE_shape.
  - repeat split.
Qed.

(** ** Birthday *)

Lemma render_date_length (ymd : N * N * N) : List.length (render_date ymd) = 10.
Proof. destruct ymd as [[y m] d]. reflexivity. Qed.

(** Every [YYYY-MM-DD] rendering of a valid date is accepted. *)

Lemma digit_char_In (n : N) : In (digit_char n) (lit "0123456789").
Proof.
  unfold digit_char.
  assert (H : (n mod 10 < 10)%N) by (apply N.mod_lt; discriminate).
  remember (n mod 10)%N as k eqn:E. clear E.
  assert (C : (k = 0 \/ k = 1 \/ k = 2 \/ k = 3 \/ k = 4 \/ k = 5 \/ k = 6
               \/ k = 7 \/ k = 8 \/ k = 9)%N) by lia.
  repeat (destruct C as [-> | C]; [simpl; tauto |]). subst. simpl. tauto.
Qed.

Lemma digit_char_isdigit (n : N) : isdigit (digit_char n) = true.
Proof.
  assert (F : forallb isdigit (lit "0123456789") = true) by reflexivity.
  rewrite forallb_forall in F. apply F, digit_char_In.
Qed.

Lemma digit_char_not_space (n : N) : isspace (digit_char n) = false.
Proof.
  assert (F : forallb (fun c => negb (isspace c)) (lit "0123456789") = true)
    by reflexivity.
  rewrite forallb_forall in F. apply negb_true_iff, F, digit_char_In.
Qed.

Lemma digit_char_code (n : N) : code (digit_char n) = (48 + n mod 10)%N.
Proof.
  unfold code, digit_char. apply N_ascii_embedding.
  assert (n mod 10 < 10)%N by (apply N.mod_lt; discriminate). lia.
Qed.

Lemma four_digits (y : N) :
  (y <= 9999)%N ->
  ((((0 * 10 + (y / 1000) mod 10) * 10 + (y / 100) mod 10) * 10
    + (y / 10) mod 10) * 10 + y mod 10 = y)%N.
Proof.
  intro H. zify. Z.to_euclidean_division_equations. lia.
Qed.

Lemma strip_digits4 (a b c d : N) :
  strip [digit_char a; digit_char b; digit_char c; digit_char d]
  = [digit_char a; digit_char b; digit_char c; digit_char d].
Proof.
  unfold strip, rstrip. simpl. rewrite (digit_char_not_space a). simpl.
  rewrite (digit_char_not_space d). reflexivity.
Qed.

Lemma sub48 (k : N) : (48 + k - 48 = k)%N.
Proof. lia. Qed.

Lemma int_year (y : N) :
  (y <= 9999)%N ->
  int [digit_char (y / 1000); digit_char (y / 100); digit_char (y / 10);
       digit_char y] = y.
Proof.
  intro H. unfold int. rewrite strip_digits4. simpl.
  rewrite !digit_char_code, !sub48.
  apply four_digits. assumption.
Qed.

Lemma month_cases (m : N) :
  (1 <= m <= 12)%N ->
  In m [1; 2; 3; 4; 5; 6; 7; 8; 9; 10; 11; 12]%N.
Proof. intro H. simpl. lia. Qed.

Lemma render_month (m : N) (R : Type) (k : str -> str -> option R) (s : str)
    (r : R) :
  (1 <= m <= 12)%N ->
  k [digit_char (m / 10); digit_char m] s = Some r ->
  match_group directive_m k (digit_char (m / 10) :: digit_char m :: s) = Some r
  /\ int [digit_char (m / 10); digit_char m] = m.
Proof.
  intros H Hk. apply month_cases in H. simpl in H.
  repeat (destruct H as [<- | H];
          [vm_compute in Hk; split; [cbn; rewrite Hk |]; reflexivity |]).
  contradiction.
Qed.

Lemma day_cases (d : N) :
  (1 <= d <= 31)%N ->
  In d [1; 2; 3; 4; 5; 6; 7; 8; 9; 10; 11; 12; 13; 14; 15; 16; 17; 18; 19;
        20; 21; 22; 23; 24; 25; 26; 27; 28; 29; 30; 31]%N.
Proof. intro H. simpl. lia. Qed.

Lemma render_day (d : N) (R : Type) (k : str -> str -> option R) (s : str)
    (r : R) :
  (1 <= d <= 31)%N ->
  k [digit_char (d / 10); digit_char d] s = Some r ->
  match_group directive_d k (digit_char (d / 10) :: digit_char d :: s) = Some r
  /\ int [digit_char (d / 10); digit_char d] = d.
Proof.
  intros H Hk. apply day_cases in H. simpl in H.
  repeat (destruct H as [<- | H];
          [vm_compute in Hk; split; [cbn; rewrite Hk |]; reflexivity |]).
  contradiction.
Qed.

Lemma render_year (a b c d : ascii) (R : Type) (k : str -> str -> option R)
    (s : str) (r : R) :
  isdigit a = true -> isdigit b = true -> isdigit c = true ->
  isdigit d = true ->
  k [a; b; c; d] s = Some r ->
  match_group directive_Y k (a :: b :: c :: d :: s) = Some r.
Proof.
  intros Ha Hb Hc Hd Hk. simpl. rewrite Ha, Hb, Hc, Hd, Hk. reflexivity.
Qed.

Lemma days_in_month_le_31 (y m : N) : (_days_in_month y m <= 31)%N.
Proof.
  unfold _days_in_month.
  destruct ((m =? 2)%N && _is_leap y); [lia |].
  destruct (nth_in_or_default (N.to_nat m) _DAYS_IN_MONTH 0%N) as [H | ->];
    [| lia].
  revert H. generalize (nth (N.to_nat m) _DAYS_IN_MONTH 0%N).
  intros x H. simpl in H. lia.
Qed.

Lemma valid_date_bounds (y m d : N) :
  valid_date y m d = true ->
  (1 <= y <= 9999 /\ 1 <= m <= 12 /\ 1 <= d <= 31)%N.
Proof.
  unfold valid_date. rewrite !andb_true_iff, !N.leb_le.
  pose proof (days_in_month_le_31 y m). lia.
Qed.

Lemma match_literal_same (R : Type) (c : ascii) (k : str -> option R)
    (s : str) :
  match_literal c k (c :: s) = k s.
Proof. unfold match_literal, is_char. rewrite Ascii.eqb_refl. reflexivity. Qed.

Lemma rendered_date_accepted (y m d : N) :
  valid_date y m d = true -> strptime (render_date (y, m, d)) = Some (y, m, d).
Proof.
  intro V. destruct (valid_date_bounds _ _ _ V) as (Hy & Hm & Hd).
  assert (E : format_regex_match (render_date (y, m, d))
              = Some ([digit_char (y / 1000); digit_char (y / 100);
                       digit_char (y / 10); digit_char y],
                      [digit_char (m / 10); digit_char m],
                      [digit_char (d / 10); digit_char d], [])).
  { unfold format_regex_match, render_date.
    cbn [app lit list_ascii_of_string].
    apply render_year; try apply digit_char_isdigit.
    rewrite match_literal_same.
    apply (@render_month m); [exact Hm |].
    rewrite match_literal_same.
    apply (@render_day d); [exact Hd | reflexivity]. }
  unfold strptime. rewrite E.
  rewrite int_year by lia.
  rewrite (proj2 (@render_month m unit (fun _ _ => Some tt) [] tt Hm eq_refl)).
  rewrite (proj2 (@render_day d unit (fun _ _ => Some tt) [] tt Hd eq_refl)).
  rewrite V. reflexivity.
Qed.

(** C2: the code at [2001-4-9].  [_validate_birthday] accepts it (the
    directives [%m] and [%d] take a month and a day without the leading
    zero), although it is the [YYYY-MM-DD] rendering of no date: parsing
    it and rendering the date gives [2001-04-09].  Every rendering of a
    valid date is accepted; month 13, day 32 and another format are
    rejected. *)
Theorem validate_birthday_accepts_unpadded :
  _validate_birthday (lit "2001-4-9") = true /\
  ~ spec_birthday_shape (lit "2001-4-9") /\
  option_map render_date (strptime (lit "2001-4-9"))
  = Some (lit "2001-04-09") /\
  (forall s : str, spec_birthday_shape s -> _validate_birthday s = true) /\
  _validate_birthday (lit "2001-13-01") = false /\
  _validate_birthday (lit "2001-01-32") = false /\
  _validate_birthday (lit "09/04/2001") = false.
Proof.
  split; [reflexivity |]. split; [| split; [| split; [| repeat split]]].
  - intros (y & m & d & _ & E).
    apply (f_equal (@List.length ascii)) in E.
    rewrite render_date_length in E. discriminate.
  - reflexivity.
  - intros s (y & m & d & V & ->). unfold _validate_birthday.
    rewrite rendered_date_accepted by assumption. reflexivity.
Qed.

(** ** The six checks together *)

Lemma append_unless_app (ok : bool) (msg : str) (errors : list str) :
  append_unless ok msg errors = errors ++ (if ok then [] else [msg]).
Proof.
  unfold append_unless. destruct ok; simpl; [rewrite app_nil_r |]; reflexivity.
Qed.

Lemma errors_of_checks (d : customer_data) :
  errors_of d = map snd (filter (fun c => negb (fst c)) (checks d)).
Proof.
  unfold errors_of, validate_all, checks. rewrite !append_unless_app.
  destruct (_validate_name (name d)), (_validate_birthday (birthday d)),
    (_validate_email (email d)), (_validate_phone (phone d)),
    (_validate_address (address d)), (contact_in_set (preferred_contact d));
    reflexivity.
Qed.

Lemma errors_of_nil (d : customer_data) :
  errors_of d = [] <-> forallb fst (checks d) = true.
Proof.
  rewrite errors_of_checks. unfold checks.
  destruct (_validate_name (name d)), (_validate_birthday (birthday d)),
    (_validate_email (email d)), (_validate_phone (phone d)),
    (_validate_address (address d)), (contact_in_set (preferred_contact d));
    simpl; split; intro H; try reflexivity; discriminate.
Qed.

(** C1: the six checks all run, whatever the others give; [errors] holds
    the messages of the failing checks, one per failing check, in the
    order name, birthday, email, phone, address, contact preference; it is
    empty exactly when every check passes; the all-invalid sample gives
    the six messages in that order. *)
Theorem validate_all_accumulates :
  (forall n b e p a c : str,
      validate_all n b e p a c
      = map snd (filter (fun k => negb (fst k))
                   (checks (CustomerData n b e p a c)))) /\
  (forall n b e p a c : str,
      List.length (validate_all n b e p a c)
      = List.length (filter negb
                       (map fst (checks (CustomerData n b e p a c))))) /\
  (forall n b e p a c : str,
      validate_all n b e p a c = [] <->
      _validate_name n = true /\ _validate_birthday b = true /\
      _validate_email e = true /\ _validate_phone p = true /\
      _validate_address a = true /\ contact_in_set c = true) /\
  validate_all (lit "") (lit "1990-13-40") (lit "bad") (lit "123") (lit "")
    (lit "Fax")
  = [MSG_NAME; MSG_BIRTHDAY; MSG_EMAIL; MSG_PHONE; MSG_ADDRESS; MSG_CONTACT].
Proof.
  split; [| split; [| split]].
  - intros. apply (errors_of_checks (CustomerData n b e p a c)).
  - intros. change (validate_all n b e p a c)
      with (errors_of (CustomerData n b e p a c)).
    rewrite errors_of_checks. unfold checks. simpl.
    destruct (_validate_name n), (_validate_birthday b), (_validate_email e),
      (_validate_phone p), (_validate_address a), (contact_in_set c);
      reflexivity.
  - intros. change (validate_all n b e p a c)
      with (errors_of (CustomerData n b e p a c)).
    rewrite errors_of_nil. unfold checks. simpl.
    rewrite !andb_true_iff. tauto.
  - reflexivity.
Qed.

(** ** The store *)

Lemma contact_check_In (c : str) (l : list str) :
  existsb (str_eqb c) l = true <-> In c l.
Proof.
  rewrite existsb_exists. unfold str_eqb. split.
  - intros (x & Hx & E). destruct (list_eq_dec ascii_dec c x); [| discriminate].
    subst. assumption.
  - intro H. exists c. split; [assumption |].
    destruct (list_eq_dec ascii_dec c c); [reflexivity | contradiction].
Qed.

Lemma check_preferred_contact_In (d : customer_data) :
  check_preferred_contact d = true <-> In (preferred_contact d) CONTACTS.
Proof. apply contact_check_In. Qed.

(** The outcomes of [save_to_db]: an exception and the file as it was,
    or one new row. *)
Lemma save_to_db_cases (e : env) (d : customer_data) (db : database) :
  (exists err, save_to_db e d db = (Raise err, db)) \/
  (exists t,
      db = Some t /\ fault e = NoFault /\ check_preferred_contact d = true /\
      table_full t = false /\
      save_to_db e d db
      = (Ok tt,
         Some (Table (rows t ++ [Row (next_id t) d (now e)]) (next_id t)))).
Proof.
  unfold save_to_db, connect, with_con, execute_insert, commit, rollback,
    close, view, sql_insert.
  destruct (fault e) eqn:Ef; cbn -[table_full next_id check_preferred_contact]; rewrite ?Ef;
    cbn -[table_full next_id check_preferred_contact];
    try (left; eexists; reflexivity);
    (destruct db as [t |]; cbn -[table_full next_id check_preferred_contact];
     [| left; eexists; reflexivity]);
    (destruct (table_full t) eqn:Et; cbn -[table_full next_id check_preferred_contact];
     [left; eexists; reflexivity |]);
    destruct (check_preferred_contact d) eqn:Ec; cbn -[table_full next_id check_preferred_contact];
    rewrite ?Ef; cbn -[table_full next_id check_preferred_contact];
    try (left; eexists; reflexivity).
  right. exists t. auto.
Qed.

(** [save_to_db] on an existing table when the backend does not fail. *)
Lemma save_to_db_no_fault (ts : str) (d : customer_data) (t : table) :
  save_to_db (Env NoFault ts) d (Some t)
  = if table_full t then (Raise DatabaseFull, Some t)
    else if check_preferred_contact d
    then (Ok tt,
          Some (Table (rows t ++ [Row (next_id t) d ts]) (next_id t)))
    else (Raise CheckFailed, Some t).
Proof.
  unfold save_to_db, connect, with_con, execute_insert, sql_insert.
  cbn -[table_full next_id check_preferred_contact].
  destruct (table_full t); [reflexivity |].
  destruct (check_preferred_contact d); reflexivity.
Qed.

Lemma save_to_db_check_failed (e : env) (d : customer_data) (t : table) :
  check_preferred_contact d = false ->
  (exists err, save_to_db e d (Some t) = (Raise err, Some t)) /\
  save_to_db (Env NoFault (now e)) d (Some t)
  = (Raise (if table_full t then DatabaseFull else CheckFailed), Some t).
Proof.
  intro Hc. split.
  - destruct (save_to_db_cases e d (Some t))
      as [H | (t' & _ & _ & Hc' & _)]; [assumption | congruence].
  - rewrite save_to_db_no_fault, Hc. destruct (table_full t); reflexivity.
Qed.

Lemma init_db_quiet (ts : str) (db : database) :
  init_db (Env NoFault ts) db = (Ok tt, sql_create_table db).
Proof. destruct db; reflexivity. Qed.

Lemma init_db_rows (e : env) (db : database) :
  db_rows (snd (init_db e db)) = db_rows db.
Proof.
  unfold init_db, connect, execute_create, commit, close.
  destruct (fault e), db; reflexivity.
Qed.

Lemma init_db_cases (e : env) (db : database) :
  snd (init_db e db) = db \/ snd (init_db e db) = Some empty_table.
Proof.
  unfold init_db, connect, execute_create, commit, close.
  destruct (fault e), db; simpl; auto.
Qed.

(** ** [on_submit] *)

Lemma on_submit_invalid (e : env) (f : form) (db : database) :
  errors_of (stripped f) <> [] ->
  on_submit e f db
  = ([showerror (lit "Please fix the following")
        (join [LF] (errors_of (stripped f)))], f, db).
Proof.
  intro H. unfold on_submit. fold (errors_of (stripped f)).
  destruct (errors_of (stripped f)); [congruence | reflexivity].
Qed.

Lemma on_submit_valid (e : env) (f : form) (db : database) :
  errors_of (stripped f) = [] ->
  on_submit e f db
  = match save_to_db e (stripped f) db with
    | (Ok _, db') =>
        ([call_save_to_db (stripped f);
          showinfo (lit "Success") (lit "Customer information saved.");
          call_clear_form], clear_form f, db')
    | (Raise err, db') =>
        ([call_save_to_db (stripped f);
          showerror (lit "Error")
            (lit "Could not save data:" ++ [LF] ++ error_text err)], f, db')
    end.
Proof.
  intro H. unfold on_submit. fold (errors_of (stripped f)). rewrite H.
  reflexivity.
Qed.

Lemma strptime_valid (s : str) (y m d : N) :
  strptime s = Some (y, m, d) -> valid_date y m d = true.
Proof.
  unfold strptime.
  destruct (format_regex_match s) as [[[[ty tm] td] rest] |]; [| discriminate].
  destruct rest; [| discriminate].
  destruct (valid_date (int ty) (int tm) (int td)) eqn:E; [| discriminate].
  intro H. injection H as <- <- <-. assumption.
Qed.

(** ** Validation before storage *)

(** [split_on] undoes [join] on pieces without the separator. *)
Lemma split_on_piece (sep : ascii) (w rest : str) :
  ~ In sep w -> split_on sep (w ++ sep :: rest) = w :: split_on sep rest.
Proof.
  induction w as [| c w IH]; intro H; simpl.
  - unfold is_char. rewrite Ascii.eqb_refl. reflexivity.
  - destruct (is_char sep c) eqn:E.
    + apply is_char_eq in E. subst. exfalso. apply H. left. reflexivity.
    + rewrite IH; [reflexivity |]. intro Hin. apply H. right. assumption.
Qed.

Lemma split_on_last (sep : ascii) (w : str) :
  ~ In sep w -> split_on sep w = [w].
Proof.
  induction w as [| c w IH]; intro H; simpl; [reflexivity |].
  destruct (is_char sep c) eqn:E.
  - apply is_char_eq in E. subst. exfalso. apply H. left. reflexivity.
  - rewrite IH; [reflexivity |]. intro Hin. apply H. right. assumption.
Qed.

Lemma split_on_join (sep : ascii) (parts : list str) :
  parts <> [] -> Forall (fun w => ~ In sep w) parts ->
  split_on sep (join [sep] parts) = parts.
Proof.
  induction parts as [| p ps IH]; intros Hne HF; [congruence |].
  inversion HF as [| ? ? Hp HF']; subst.
  destruct ps as [| q ps'].
  - simpl. apply split_on_last. assumption.
  - change (join [sep] (p :: q :: ps'))
      with (p ++ sep :: join [sep] (q :: ps')).
    rewrite split_on_piece by assumption.
    rewrite IH; [reflexivity | discriminate | assumption].
Qed.

Lemma errors_of_messages (d : customer_data) (m : str) :
  In m (errors_of d) ->
  In m [MSG_NAME; MSG_BIRTHDAY; MSG_EMAIL; MSG_PHONE; MSG_ADDRESS;
        MSG_CONTACT].
Proof.
  rewrite errors_of_checks. intro H.
  apply in_map_iff in H as ([b m'] & <- & H).
  apply filter_In in H as [H _]. unfold checks in H.
  cbn [In] in H. cbn [In snd].
  repeat (destruct H as [H | H]; [injection H as _ <-; tauto |]).
  contradiction.
Qed.

Lemma message_one_line (m : str) :
  In m [MSG_NAME; MSG_BIRTHDAY; MSG_EMAIL; MSG_PHONE; MSG_ADDRESS;
        MSG_CONTACT] ->
  ~ In LF m.
Proof.
  intros H Hin.
  assert (E : existsb (is_char LF) m = true).
  { apply existsb_exists. exists LF. split; [assumption |].
    apply is_char_eq. reflexivity. }
  cbn [In] in H.
  repeat (destruct H as [<- | H]; [vm_compute in E; discriminate |]).
  contradiction.
Qed.

Lemma errors_one_line (d : customer_data) :
  Forall (fun w => ~ In LF w) (errors_of d).
Proof.
  apply Forall_forall. intros m H.
  apply message_one_line, (errors_of_messages d). assumption.
Qed.

(** C3: when at least one of the six checks of a submission fails,
    [on_submit] only shows one error box; its text, cut at the line
    feeds, is the list of the messages of the failing checks, in the
    order of the fields, one message per line; [save_to_db] is not called,
    and the form and the file are as before. *)
Theorem invalid_submission_never_reaches_store
    (e : env) (f : form) (db : database) :
  forallb fst (checks (stripped f)) = false ->
  on_submit e f db
  = ([showerror (lit "Please fix the following")
        (join [LF] (errors_of (stripped f)))], f, db) /\
  (exists text : str,
      fst (fst (on_submit e f db))
      = [showerror (lit "Please fix the following") text] /\
      split_on LF text
      = map snd (filter (fun k => negb (fst k)) (checks (stripped f)))) /\
  errors_of (stripped f)
  = map snd (filter (fun k => negb (fst k)) (checks (stripped f))) /\
  errors_of (stripped f) <> [] /\
  (forall d, ~ In (call_save_to_db d) (fst (fst (on_submit e f db)))) /\
  snd (on_submit e f db) = db.
Proof.
  intro H.
  assert (Hne : errors_of (stripped f) <> []).
  { intro E. apply errors_of_nil in E. congruence. }
  rewrite on_submit_invalid by assumption. cbn [fst snd].
  split; [reflexivity |]. split.
  - exists (join [LF] (errors_of (stripped f))). split; [reflexivity |].
    rewrite split_on_join by (assumption || apply errors_one_line).
    apply errors_of_checks.
  - split; [apply errors_of_checks |].
    split; [assumption |]. split; [| reflexivity].
    intros d [D | []]. discriminate.
Qed.

Lemma invalid_submission_witness :
  forallb fst (checks (stripped all_invalid_form)) = false /\
  snd (on_submit quiet all_invalid_form (Some empty_table)) = Some empty_table.
Proof.
  split; [reflexivity |].
  apply (invalid_submission_never_reaches_store quiet all_invalid_form
           (Some empty_table)).
  reflexivity.
Defined.

Example after_jane_rows :
  db_rows (st_db after_jane) = [Row 1 (stripped jane) (now quiet)] /\
  st_form after_jane = clear_form jane.
Proof. split; reflexivity. Qed.

(** C7, as stated, fails: on a table that has used its last rowid,
    [save_to_db] with the preferred contact [Fax] raises, but what it
    raises is that the database is full, not the violation of the CHECK
    constraint: the rowid is chosen before the constraint is evaluated. *)
Lemma insert_on_full_table_not_check :
  ~ In (preferred_contact all_invalid) CONTACTS /\
  save_to_db quiet all_invalid (Some full_table)
  = (Raise DatabaseFull, Some full_table) /\
  save_to_db quiet all_invalid (Some full_table)
  <> (Raise CheckFailed, Some full_table).
Proof.
  split; [| split].
  - intros [D | [D | [D | []]]]; vm_compute in D; discriminate.
  - reflexivity.
  - vm_compute. discriminate.
Qed.

(** C7 (amended): on an existing table, [save_to_db] with a preferred
    contact other than [Email], [Phone] and [Mail] raises and stores
    nothing, without any validation before it; when the backend itself
    does not fail, what it raises is the violation of the CHECK
    constraint, unless the table has used its last rowid: then it is that
    the database is full. *)
Theorem insert_rejects_contact_outside_enum
    (e : env) (d : customer_data) (t : table) :
  ~ In (preferred_contact d) CONTACTS ->
  (exists err, save_to_db e d (Some t) = (Raise err, Some t)) /\
  save_to_db (Env NoFault (now e)) d (Some t)
  = (Raise (if table_full t then DatabaseFull else CheckFailed), Some t).
Proof.
  intro H. apply save_to_db_check_failed.
  destruct (check_preferred_contact d) eqn:E; [| reflexivity].
  apply check_preferred_contact_In in E. contradiction.
Qed.

Lemma insert_rejects_witness :
  ~ In (preferred_contact all_invalid) CONTACTS /\
  save_to_db quiet all_invalid (Some empty_table)
  = (Raise CheckFailed, Some empty_table).
Proof.
  assert (H : ~ In (preferred_contact all_invalid) CONTACTS)
    by (intros [D | [D | [D | []]]]; vm_compute in D; discriminate).
  split; [exact H |].
  exact (proj2 (insert_rejects_contact_outside_enum quiet all_invalid
                  empty_table H)).
Defined.

Example save_to_db_jane :
  save_to_db quiet (stripped jane) (Some empty_table)
  = (Ok tt, Some (Table [Row 1 (stripped jane) (now quiet)] 1)).
Proof. reflexivity. Qed.

(** C8: [save_to_db] either raises and leaves the file exactly as it
    was, or returns after adding one row that holds all six values, the
    new id and the timestamp; it returns only when the backend did not
    fail at any point, so a failure while connecting, executing or
    committing raises. *)
Theorem save_to_db_atomic (e : env) (d : customer_data) (db : database) :
  match save_to_db e d db with
  | (Raise _, db') => db' = db
  | (Ok _, db') =>
      fault e = NoFault /\
      exists t,
        db = Some t /\
        db' = Some (Table (rows t ++ [Row (next_id t) d (now e)]) (next_id t))
  end.
Proof.
  destruct (save_to_db_cases e d db)
    as [(err & ->) | (t & -> & Hf & _ & _ & ->)].
  - reflexivity.
  - split; [assumption |]. exists t. auto.
Qed.

(** C9: with a backend that does not fail, [init_db] returns without
    error, a second call returns without error and changes nothing, the
    table is created only when it was absent, and an existing table is
    left with its rows and counter; whatever the backend does, the rows
    are the same after [init_db] as before. *)
Theorem init_db_idempotent (ts1 ts2 : str) (db : database) :
  let db1 := snd (init_db (Env NoFault ts1) db) in
  init_db (Env NoFault ts1) db = (Ok tt, db1) /\
  init_db (Env NoFault ts2) db1 = (Ok tt, db1) /\
  db1 = match db with Some t => Some t | None => Some empty_table end /\
  db_rows db1 = db_rows db /\
  forall e : env, db_rows (snd (init_db e db)) = db_rows db.
Proof.
  simpl. rewrite !init_db_quiet. simpl.
  destruct db; simpl; repeat split; intro e; apply init_db_rows.
Qed.

(** ** Stripping before validation and storage *)





(** * Further results *)

(** ** [strip] *)

Lemma lstrip_nil_spaces (s : str) : lstrip s = [] -> forallb isspace s = true.
Proof.
  induction s as [| c s IH]; simpl; [reflexivity |].
  destruct (isspace c); [exact IH | discriminate].
Qed.

Lemma lstrip_fixed (c : ascii) (s : str) :
  isspace c = false -> lstrip (c :: s) = c :: s.
Proof. intro H. simpl. rewrite H. reflexivity. Qed.

Lemma lstrip_snoc (s : str) (c : ascii) :
  isspace c = false -> lstrip (s ++ [c]) = lstrip s ++ [c].
Proof.
  intro H. induction s as [| a s IH]; simpl.
  - rewrite H. reflexivity.
  - destruct (isspace a); [exact IH | reflexivity].
Qed.

Lemma rstrip_cons (c : ascii) (s : str) :
  isspace c = false -> rstrip (c :: s) = c :: rstrip s.
Proof.
  intro H. unfold rstrip. simpl. rewrite lstrip_snoc by assumption.
  rewrite rev_app_distr. reflexivity.
Qed.

Lemma lstrip_decompose (s : str) :
  exists l, s = l ++ lstrip s /\ forallb isspace l = true.
Proof.
  induction s as [| c s (l & E & H)]; simpl.
  - exists []. auto.
  - destruct (isspace c) eqn:Ec.
    + exists (c :: l). simpl. rewrite Ec, H. split; [congruence | reflexivity].
    + exists []. auto.
Qed.

Lemma rstrip_decompose (s : str) :
  exists r, s = rstrip s ++ r /\ forallb isspace r = true.
Proof.
  destruct (lstrip_decompose (rev s)) as (l & E & H).
  exists (rev l). split.
  - unfold rstrip. rewrite <- rev_app_distr, <- E. symmetry. apply rev_involutive.
  - rewrite forallb_forall in *. intros x Hx. apply H, in_rev. assumption.
Qed.

Lemma strip_cases (s : str) :
  strip s = [] \/
  exists c t, lstrip s = c :: t /\ isspace c = false /\ strip s = c :: rstrip t.
Proof.
  unfold strip. destruct (lstrip s) as [| c t] eqn:E.
  - left. reflexivity.
  - right. exists c, t. pose proof (lstrip_head _ E) as Hc.
    rewrite rstrip_cons by assumption. auto.
Qed.

Lemma rstrip_idempotent (s : str) : rstrip (rstrip s) = rstrip s.
Proof.
  unfold rstrip. rewrite rev_involutive. f_equal.
  destruct (lstrip (rev s)) as [| c t] eqn:E; [reflexivity |].
  apply lstrip_fixed. eapply lstrip_head. eassumption.
Qed.

Lemma strip_idempotent (s : str) : strip (strip s) = strip s.
Proof.
  destruct (strip_cases s) as [-> | (c & t & _ & Hc & ->)]; [reflexivity |].
  unfold strip. rewrite lstrip_fixed by assumption.
  rewrite !rstrip_cons by assumption. rewrite rstrip_idempotent. reflexivity.
Qed.

Lemma strip_nil_iff (s : str) : strip s = [] <-> forallb isspace s = true.
Proof.
  split.
  - intro H. destruct (strip_cases s) as [_ | (c & t & _ & _ & E)];
      [| congruence].
    unfold strip, rstrip in H.
    apply (f_equal (@rev ascii)) in H. rewrite rev_involutive in H. simpl in H.
    apply lstrip_nil_spaces in H.
    destruct (lstrip s) as [| c t] eqn:E.
    + apply lstrip_nil_spaces. assumption.
    + pose proof (lstrip_head _ E) as Hc.
      rewrite forallb_forall in H. specialize (H c).
      rewrite H in Hc; [discriminate |]. apply -> in_rev. left. reflexivity.
  - intro H. unfold strip. rewrite lstrip_all_spaces by assumption. reflexivity.
Qed.

Lemma forallb_false_exists (p : ascii -> bool) (s : str) :
  forallb p s = false <-> exists c, In c s /\ p c = false.
Proof.
  induction s as [| a s IH]; simpl.
  - split; [discriminate | intros (c & [] & _)].
  - rewrite andb_false_iff, IH. split.
    + intros [H | (c & Hc & H)]; [exists a | exists c]; auto.
    + intros (c & [-> | Hc] & H); [left | right; exists c]; auto.
Qed.

(** X1: [strip] removes whitespace at the two ends and nothing else: the
    text is the stripped text between two runs of whitespace, the stripped
    text is empty or begins and ends with a character that is not
    whitespace, and stripping again changes nothing. *)
Theorem strip_characterised (s : str) :
  (exists l r : str,
      s = l ++ strip s ++ r /\
      forallb isspace l = true /\ forallb isspace r = true) /\
  match strip s with [] => True | c :: _ => isspace c = false end /\
  match rev (strip s) with [] => True | c :: _ => isspace c = false end /\
  strip (strip s) = strip s.
Proof.
  split; [| split; [| split]].
  - destruct (lstrip_decompose s) as (l & El & Hl).
    destruct (rstrip_decompose (lstrip s)) as (r & Er & Hr).
    exists l, r. unfold strip. rewrite <- Er. auto.
  - destruct (strip_cases s) as [-> | (c' & t' & _ & Hc & ->)];
      [exact I | assumption].
  - destruct (rev (strip s)) as [| c t] eqn:E; [exact I |].
    apply (f_equal (@rev ascii)) in E. rewrite rev_involutive in E.
    simpl in E. eapply strip_last. eassumption.
  - apply strip_idempotent.
Qed.

(** X2: the name check and the address check accept a text exactly when
    it has a character that is not whitespace; they reject the empty text
    and every text of whitespace only, and give the same answer before and
    after [strip]. *)
Theorem validate_name_address_nonblank (s : str) :
  _validate_name s = negb (forallb isspace s) /\
  (_validate_name s = true <-> exists c, In c s /\ isspace c = false) /\
  _validate_address s = _validate_name s /\
  _validate_name (strip s) = _validate_name s.
Proof.
  assert (N : _validate_name s = negb (forallb isspace s)).
  { unfold _validate_name. destruct (forallb isspace s) eqn:E.
    - apply strip_nil_iff in E. rewrite E. reflexivity.
    - destruct (strip s) eqn:Es; [| reflexivity].
      apply strip_nil_iff in Es. congruence. }
  split; [exact N |]. split; [| split].
  - rewrite N, negb_true_iff. apply forallb_false_exists.
  - unfold _validate_address, _validate_name. destruct (strip s); reflexivity.
  - unfold _validate_name. rewrite strip_idempotent. reflexivity.
Qed.

(** ** Rows and ids *)

Lemma init_db_outcome (e : env) (db : database) :
  (exists err, init_db e db = (Raise err, db)) \/
  init_db e db = (Ok tt, sql_create_table db).
Proof.
  unfold init_db, connect, execute_create, commit, close.
  destruct (fault e); simpl; eauto.
Qed.

Lemma init_db_db_cases (e : env) (db : database) :
  snd (init_db e db) = db \/
  (db = None /\ snd (init_db e db) = Some empty_table).
Proof.
  destruct (init_db_outcome e db) as [(err & ->) | ->]; [left; reflexivity |].
  destruct db; simpl; auto.
Qed.

(** What one step does to the file: nothing, the creation of the empty
    table, or one row holding the stripped values of a form that passed
    the six checks. *)
Lemma step_db_cases (e : env) (a : action) (s : state) :
  st_db (step e a s) = st_db s \/
  (st_db s = None /\ st_db (step e a s) = Some empty_table) \/
  (exists t,
      st_db s = Some t /\ errors_of (stripped (st_form s)) = [] /\
      st_db (step e a s)
      = Some (Table (rows t ++ [Row (next_id t) (stripped (st_form s)) (now e)])
                (next_id t))).
Proof.
  destruct a as [| f | |]; simpl; auto.
  - destruct (init_db_db_cases e (st_db s)) as [H | H]; auto.
  - destruct (list_eq_dec (list_eq_dec ascii_dec)
                (errors_of (stripped (st_form s))) []) as [Hv | Hv].
    + rewrite on_submit_valid by assumption.
      destruct (save_to_db_cases e (stripped (st_form s)) (st_db s))
        as [(err & ->) | (t & Ht & _ & _ & _ & ->)]; simpl; [auto |].
      right. right. exists t. auto.
    + rewrite on_submit_invalid by assumption. simpl. auto.
Qed.

(** An invariant of the rows: what holds of every row a submission can
    add holds of every row of every reachable state. *)
Lemma reachable_rows (P : row -> Prop) :
  (forall (e : env) (f : form) (i : N),
      errors_of (stripped f) = [] -> P (Row i (stripped f) (now e))) ->
  forall s, reachable s -> Forall P (db_rows (st_db s)).
Proof.
  intros HP s R. induction R as [f | e a s R IH]; [constructor |].
  destruct (step_db_cases e a s) as [-> | [[_ ->] | (t & Ht & Hv & ->)]].
  - assumption.
  - constructor.
  - rewrite Ht in IH. simpl in *. apply Forall_app. split; [assumption |].
    constructor; [apply HP; assumption | constructor].
Qed.

(** X3: every row of every reachable state holds values without leading
    or trailing whitespace: each of the six columns is its own [strip]. *)
Theorem stored_rows_stripped (s : state) :
  reachable s -> Forall (fun r => data_stripped (data r)) (db_rows (st_db s)).
Proof.
  apply reachable_rows. intros e f i _.
  unfold data_stripped, is_stripped, stripped. simpl.
  repeat split; apply strip_idempotent.
Qed.

Lemma stored_rows_stripped_witness :
  reachable after_jane /\
  Forall (fun r => data_stripped (data r)) (db_rows (st_db after_jane)).
Proof.
  assert (R : reachable after_jane)
    by (unfold after_jane; apply reach_step, reach_step, reach_start).
  split; [exact R | exact (stored_rows_stripped R)].
Defined.

Lemma fold_max_bound (l : list N) (x : N) :
  In x l -> (x <= fold_right N.max 0 l)%N.
Proof.
  induction l as [| a l IH]; simpl; [contradiction |].
  intros [-> | H]; [lia |]. specialize (IH H). lia.
Qed.

(** X4: a successful [save_to_db] gives the new row an id that is
    positive, larger than the id of every row of the table and larger than
    the counter of the table, and not above the largest rowid; it sets the
    counter to it. *)
Theorem save_to_db_fresh_id
    (e : env) (d : customer_data) (t : table) (db' : database) :
  save_to_db e d (Some t) = (Ok tt, db') ->
  exists i : N,
    db' = Some (Table (rows t ++ [Row i d (now e)]) i) /\
    (0 < i)%N /\ (sequence t < i)%N /\
    Forall (fun r => (id r < i)%N) (rows t) /\
    (i <= MAX_ROWID)%N.
Proof.
  intro H.
  destruct (save_to_db_cases e d (Some t))
    as [(err & E) | (t' & Et & _ & _ & Hfull & E)]; [congruence |].
  injection Et as <-. rewrite E in H. injection H as <-.
  exists (next_id t). split; [reflexivity |].
  unfold table_full in Hfull. apply N.ltb_ge in Hfull.
  split; [unfold next_id; lia |]. split; [unfold next_id; lia |].
  split; [| assumption].
  apply Forall_forall. intros r Hr.
  assert (B : (id r <= fold_right N.max 0 (map id (rows t)))%N)
    by (apply fold_max_bound, in_map, Hr).
  unfold next_id. lia.
Qed.

Lemma save_to_db_fresh_id_witness :
  save_to_db quiet (stripped jane) (Some two_rows)
  = (Ok tt,
     Some (Table (rows two_rows ++ [Row 3 (stripped jane) (now quiet)]) 3)) /\
  exists i : N,
    Some (Table (rows two_rows ++ [Row 3 (stripped jane) (now quiet)]) 3)
    = Some (Table (rows two_rows ++ [Row i (stripped jane) (now quiet)]) i) /\
    (0 < i)%N /\ (sequence two_rows < i)%N /\
    Forall (fun r => (id r < i)%N) (rows two_rows) /\
    (i <= MAX_ROWID)%N.
Proof.
  split; [reflexivity |].
  apply (@save_to_db_fresh_id quiet (stripped jane) two_rows). reflexivity.
Defined.

Lemma fold_max_snoc (l : list N) (x : N) :
  fold_right N.max 0%N (l ++ [x]) = N.max (fold_right N.max 0%N l) x.
Proof.
  induction l as [| a l IH]; simpl; [lia |]. rewrite IH. lia.
Qed.

Lemma ids_from_one_S (n : nat) :
  ids_from_one (S n) = ids_from_one n ++ [N.of_nat (S n)].
Proof. unfold ids_from_one. rewrite seq_S, map_app. reflexivity. Qed.

Lemma ids_from_one_max (n : nat) :
  fold_right N.max 0%N (ids_from_one n) = N.of_nat n.
Proof.
  induction n as [| n IH]; [reflexivity |].
  rewrite ids_from_one_S, fold_max_snoc, IH. lia.
Qed.

(** X5: in every state reached from an absent table, the ids of the rows
    are 1, 2, ..., n in the order of insertion, and the counter is n: ids
    are unique, increasing and without gaps, and a submission that fails
    uses up no id. *)
Theorem reachable_ids_consecutive (s : state) (t : table) :
  reachable s -> st_db s = Some t ->
  map id (rows t) = ids_from_one (List.length (rows t)) /\
  sequence t = N.of_nat (List.length (rows t)).
Proof.
  intro R. revert t. induction R as [f | e a s R IH]; intros t' Ht';
    [discriminate |].
  destruct (step_db_cases e a s) as [E | [[_ E] | (t & Ht & _ & E)]];
    rewrite E in Ht'.
  - auto.
  - injection Ht' as <-. split; reflexivity.
  - injection Ht' as <-. destruct (IH t Ht) as [Hi Hs]. simpl.
    assert (Hn : next_id t = N.of_nat (S (List.length (rows t)))).
    { unfold next_id. rewrite Hi, Hs, ids_from_one_max. lia. }
    rewrite length_app, map_app, Hi, Hn. simpl.
    rewrite Nat.add_1_r, ids_from_one_S. split; reflexivity.
Qed.

Lemma reachable_ids_witness :
  reachable after_jane /\
  map id (db_rows (st_db after_jane)) = [1%N].
Proof.
  assert (R : reachable after_jane)
    by (unfold after_jane; apply reach_step, reach_step, reach_start).
  split; [exact R |].
  exact (proj1 (@reachable_ids_consecutive after_jane
                  (Table [Row 1 (stripped jane) (now quiet)] 1) R eq_refl)).
Defined.

(** ** Outcomes of a submission *)

(** The three outcomes of [on_submit]. *)
Lemma on_submit_cases (e : env) (f : form) (db : database) :
  (errors_of (stripped f) <> [] /\
   on_submit e f db
   = ([showerror (lit "Please fix the following")
         (join [LF] (errors_of (stripped f)))], f, db)) \/
  (errors_of (stripped f) = [] /\
   exists err,
     on_submit e f db
     = ([call_save_to_db (stripped f);
         showerror (lit "Error")
           (lit "Could not save data:" ++ [LF] ++ error_text err)], f, db)) \/
  (errors_of (stripped f) = [] /\
   exists t,
     db = Some t /\
     on_submit e f db
     = ([call_save_to_db (stripped f);
         showinfo (lit "Success") (lit "Customer information saved.");
         call_clear_form],
        clear_form f,
        Some (Table (rows t ++ [Row (next_id t) (stripped f) (now e)])
                (next_id t)))).
Proof.
  destruct (list_eq_dec (list_eq_dec ascii_dec) (errors_of (stripped f)) [])
    as [Hv | Hv].
  - right. rewrite on_submit_valid by assumption.
    destruct (save_to_db_cases e (stripped f) db)
      as [(err & ->) | (t & Ht & _ & _ & _ & ->)].
    + left. split; [assumption |]. exists err. reflexivity.
    + right. split; [assumption |]. exists t. auto.
  - left. split; [assumption |]. apply on_submit_invalid. assumption.
Qed.

(** X6: the three outcomes of [on_submit].  Either a check fails: the
    messages are shown, nothing else happens.  Or the checks pass and the
    store raises: [save_to_db] was called once, the error is shown, the
    form keeps its content and the file is as before.  Or a row with the
    stripped values is stored, the success box is shown and the form is
    cleared.  So one box is shown per submission, and the form is cleared
    only after its values were stored. *)
Theorem on_submit_outcome (e : env) (f : form) (db : database) :
  (errors_of (stripped f) <> [] /\
   on_submit e f db
   = ([showerror (lit "Please fix the following")
         (join [LF] (errors_of (stripped f)))], f, db)) \/
  (errors_of (stripped f) = [] /\
   exists err,
     on_submit e f db
     = ([call_save_to_db (stripped f);
         showerror (lit "Error")
           (lit "Could not save data:" ++ [LF] ++ error_text err)], f, db)) \/
  (errors_of (stripped f) = [] /\
   exists t,
     db = Some t /\
     on_submit e f db
     = ([call_save_to_db (stripped f);
         showinfo (lit "Success") (lit "Customer information saved.");
         call_clear_form],
        clear_form f,
        Some (Table (rows t ++ [Row (next_id t) (stripped f) (now e)])
                (next_id t)))).
Proof.
  destruct (list_eq_dec (list_eq_dec ascii_dec) (errors_of (stripped f)) [])
    as [Hv | Hv].
  - right. rewrite on_submit_valid by assumption.
    destruct (save_to_db_cases e (stripped f) db)
      as [(err & ->) | (t & Ht & _ & _ & _ & ->)].
    + left. split; [assumption |]. exists err. reflexivity.
    + right. split; [assumption |]. exists t. auto.
  - left. split; [assumption |]. apply on_submit_invalid. assumption.
Qed.

Lemma clear_form_rejected (f : form) :
  errors_of (stripped (clear_form f)) <> [].
Proof. vm_compute. discriminate. Qed.

(** X7: pressing Submit twice in a row, without touching the form in
    between, never stores the values twice: the two presses together add
    at most one row. *)
Theorem double_submit_stores_once (e1 e2 : env) (s : state) :
  exists new : list row,
    db_rows (st_db (step e2 Submit (step e1 Submit s)))
    = db_rows (st_db s) ++ new /\
    List.length new <= 1.
Proof.
  destruct s as [f db]. unfold step. cbn [st_form st_db].
  destruct (on_submit_cases e1 f db)
    as [[Hv ->] | [[Hv (err & ->)] | [Hv (t & -> & ->)]]]; cbn [st_form st_db].
  - rewrite on_submit_invalid by assumption. cbn [st_db].
    exists []. rewrite app_nil_r. auto.
  - destruct (on_submit_cases e2 f db)
      as [[Hv' ->] | [[_ (err' & ->)] | [_ (t & -> & ->)]]]; cbn [st_db].
    + exists []. rewrite app_nil_r. auto.
    + exists []. rewrite app_nil_r. auto.
    + eexists. split; [reflexivity |]. simpl. auto.
  - rewrite on_submit_invalid by apply clear_form_rejected. cbn [st_db].
    eexists. split; [reflexivity |]. simpl. auto.
Qed.

(** X8: on an existing table that still has a rowid to give, and with
    a backend that does not fail, [save_to_db] stores the row exactly when
    the preferred contact is one of [Email], [Phone], [Mail], and raises
    the violation of the CHECK constraint otherwise; no other column is
    looked at, so a record with an empty name is stored.  On a table that
    has used its last rowid nothing is stored, whatever the record: the
    database is full. *)
Theorem save_to_db_accepts_iff_contact
    (ts : str) (d : customer_data) (t : table) :
  table_full t = false ->
  (save_to_db (Env NoFault ts) d (Some t)
   = (Ok tt, Some (Table (rows t ++ [Row (next_id t) d ts]) (next_id t)))
   <-> In (preferred_contact d) CONTACTS) /\
  (save_to_db (Env NoFault ts) d (Some t) = (Raise CheckFailed, Some t)
   <-> ~ In (preferred_contact d) CONTACTS) /\
  save_to_db (Env NoFault ts) empty_name_data (Some t)
  = (Ok tt,
     Some (Table (rows t ++ [Row (next_id t) empty_name_data ts]) (next_id t)))
  /\
  (forall t' : table,
      table_full t' = true ->
      save_to_db (Env NoFault ts) d (Some t') = (Raise DatabaseFull, Some t')).
Proof.
  intro Hfull. rewrite !save_to_db_no_fault, Hfull.
  rewrite <- check_preferred_contact_In.
  repeat split; try (destruct (check_preferred_contact d); congruence).
  intros t' Ht'. rewrite save_to_db_no_fault, Ht'. reflexivity.
Qed.

Lemma save_to_db_accepts_witness :
  table_full empty_table = false /\
  save_to_db quiet empty_name_data (Some empty_table)
  = (Ok tt, Some (Table [Row 1 empty_name_data (now quiet)] 1)) /\
  save_to_db quiet empty_name_data (Some full_table)
  = (Raise DatabaseFull, Some full_table).
Proof.
  assert (H : table_full empty_table = false) by reflexivity.
  split; [exact H |]. split.
  - exact (proj1 (proj2 (proj2 (save_to_db_accepts_iff_contact
                                  (now quiet) empty_name_data empty_table H)))).
  - exact (proj2 (proj2 (proj2 (save_to_db_accepts_iff_contact
                                  (now quiet) empty_name_data empty_table H)))
             full_table eq_refl).
Defined.

(** X9: a form that passes the six checks, submitted while the table
    does not exist: [save_to_db] raises, the error of the store is shown,
    the form keeps its content and nothing is created. *)
Theorem on_submit_without_table (e : env) (f : form) :
  errors_of (stripped f) = [] ->
  on_submit e f None
  = ([call_save_to_db (stripped f);
      showerror (lit "Error")
        (lit "Could not save data:" ++ [LF] ++
         error_text match fault e with
                    | ConnectFails => UnableToOpen
                    | ExecuteFails => DiskIOError
                    | _ => NoSuchTable
                    end)], f, None).
Proof.
  intro H. rewrite on_submit_valid by assumption.
  unfold save_to_db, connect, with_con, execute_insert, sql_insert, rollback,
    close.
  destruct (fault e) eqn:Ef; simpl; rewrite ?Ef; reflexivity.
Qed.

Lemma on_submit_without_table_witness :
  errors_of (stripped jane) = [] /\
  snd (on_submit quiet jane None) = None.
Proof.
  split; [reflexivity |].
  rewrite (@on_submit_without_table quiet jane eq_refl). reflexivity.
Defined.


Lemma save_to_db_error_kind (e : env) (d : customer_data) (db db' : database)
    (err : db_error) :
  check_preferred_contact d = true ->
  save_to_db e d db = (Raise err, db') -> err <> CheckFailed.
Proof.
  intros Hc. unfold save_to_db, connect, with_con, execute_insert, commit,
    rollback, close, view, sql_insert.
  destruct (fault e) eqn:Ef; cbn -[table_full next_id check_preferred_contact];
    rewrite ?Ef; cbn -[table_full next_id check_preferred_contact];
    try (intro H; inversion H; discriminate);
    (destruct db as [t |];
     cbn -[table_full next_id check_preferred_contact];
     [| intro H; inversion H; discriminate]);
    (destruct (table_full t);
     cbn -[table_full next_id check_preferred_contact];
     [intro H; inversion H; discriminate |]);
    rewrite Hc; cbn -[table_full next_id check_preferred_contact];
    rewrite ?Ef; cbn -[table_full next_id check_preferred_contact];
    intro H; inversion H; discriminate.
Qed.

(** X16: a submission never runs into the CHECK constraint of the
    table: the set the form is checked against and the set of the schema
    are the same, so when [on_submit] shows an error of the store it is
    never the constraint violation. *)
Theorem on_submit_never_check_failed (e : env) (f : form) (db : database) :
  ~ In (showerror (lit "Error")
          (lit "Could not save data:" ++ [LF] ++ error_text CheckFailed))
       (fst (fst (on_submit e f db))) /\
  (forall d : customer_data,
      check_preferred_contact d = contact_in_set (preferred_contact d)).
Proof.
  assert (K : errors_of (stripped f) = [] ->
              check_preferred_contact (stripped f) = true).
  { intro Hv. apply errors_of_nil in Hv. unfold checks in Hv. simpl in Hv.
    rewrite !andb_true_iff in Hv. apply Hv. }
  split; [| reflexivity].
  destruct (list_eq_dec (list_eq_dec ascii_dec) (errors_of (stripped f)) [])
    as [Hv | Hv].
  - rewrite on_submit_valid by assumption.
    destruct (save_to_db e (stripped f) db) as [[[] | err] db'] eqn:Es;
      cbn [fst].
    + intros [D | [D | [D | []]]]; discriminate.
    + pose proof (save_to_db_error_kind _ _ _ (K Hv) Es) as Hne.
      intros [D | [D | []]]; [discriminate |].
      injection D as D.
      destruct err; vm_compute in D; try discriminate. congruence.
  - rewrite on_submit_invalid by assumption. cbn [fst].
    intros [D | []]. injection D as D _. vm_compute in D. discriminate.
Qed.

(** ** A run of the program *)

Lemma errors_without_contact (d : customer_data) :
  contact_in_set (preferred_contact d) = true ->
  ~ In MSG_CONTACT (errors_of d).
Proof.
  intro H. rewrite errors_of_checks. unfold checks. rewrite H.
  destruct (_validate_name (name d)), (_validate_birthday (birthday d)),
    (_validate_email (email d)), (_validate_phone (phone d)),
    (_validate_address (address d)); simpl;
    intro D; repeat (destruct D as [D | D]; [vm_compute in D; discriminate |]);
    exact D.
Qed.

Lemma combo_value_passes (c : str) :
  In c COMBO_VALUES -> contact_in_set (strip c) = true.
Proof.
  intros [<- | [<- | [<- | []]]]; reflexivity.
Qed.

Lemma main_started (e : env) (g : gui_outcome) (db db0 : database)
    (s0 : state) :
  main e g db = (WindowOpen s0, db0) ->
  st_form s0 = new_form /\ exists t, st_db s0 = Some t.
Proof.
  unfold main. destruct (init_db_outcome e db) as [(err & ->) | ->];
    [discriminate |].
  destruct g; [| discriminate].
  intro H. injection H as <- _. split; [reflexivity |].
  destruct db; simpl; eauto.
Qed.

Lemma session_invariant (s0 s : state) :
  (exists t, st_db s0 = Some t) -> In (var_contact (st_form s0)) COMBO_VALUES ->
  session s0 s ->
  (exists t, st_db s = Some t) /\ In (var_contact (st_form s)) COMBO_VALUES.
Proof.
  intros Ht Hc S. induction S as [| s n b e p a S IH | s c S IH Hin
                                  | s e S IH | s e S IH].
  - auto.
  - destruct IH as [IH1 IH2]. simpl. auto.
  - destruct IH as [IH1 IH2]. simpl. auto.
  - destruct IH as [(t & IH1) IH2]. destruct s as [f db].
    unfold step. cbn [st_form st_db] in *.
    destruct (on_submit_cases e f db)
      as [[_ ->] | [[_ (err & ->)] | [_ (t' & _ & ->)]]]; cbn [st_form st_db].
    + eauto.
    + eauto.
    + split; [eauto | simpl; auto].
  - destruct IH as [IH1 IH2]. simpl. auto.
Qed.

(** X11: in a window that [main] opened, whatever the user types, picks,
    submits or clears: the table exists, the preferred contact is one of
    the values of the combobox, and the message about the preferred
    contact is never among the errors.  When the backend does not fail, a
    form that passes the checks is stored and the form cleared, unless the
    table has used its last rowid: then the error of the full database is
    shown and form and file stay as they are. *)
Theorem session_submissions
    (e : env) (g : gui_outcome) (db db0 : database) (s0 s : state) :
  main e g db = (WindowOpen s0, db0) -> session s0 s ->
  In (var_contact (st_form s)) COMBO_VALUES /\
  ~ In MSG_CONTACT (errors_of (stripped (st_form s))) /\
  exists t,
    st_db s = Some t /\
    forall ts : str,
      errors_of (stripped (st_form s)) = [] ->
      on_submit (Env NoFault ts) (st_form s) (st_db s)
      = if table_full t
        then ([call_save_to_db (stripped (st_form s));
               showerror (lit "Error")
                 (lit "Could not save data:" ++ [LF]
                  ++ error_text DatabaseFull)],
              st_form s, st_db s)
        else ([call_save_to_db (stripped (st_form s));
               showinfo (lit "Success") (lit "Customer information saved.");
               call_clear_form],
              clear_form (st_form s),
              Some (Table
                      (rows t ++ [Row (next_id t) (stripped (st_form s)) ts])
                      (next_id t))).
Proof.
  intros Hm S. destruct (main_started _ _ _ Hm) as [Hf Ht].
  assert (Hc : In (var_contact (st_form s0)) COMBO_VALUES)
    by (rewrite Hf; simpl; auto).
  destruct (session_invariant Ht Hc S) as [(t & Hs) Hin].
  split; [assumption |]. split.
  - apply errors_without_contact. simpl. apply combo_value_passes. assumption.
  - exists t. split; [assumption |]. intros ts Hv.
    rewrite on_submit_valid by assumption. rewrite Hs.
    assert (Hk : check_preferred_contact (stripped (st_form s)) = true)
      by (apply (combo_value_passes Hin)).
    rewrite save_to_db_no_fault, Hk. destruct (table_full t); reflexivity.
Qed.

Lemma session_submissions_witness :
  main quiet GuiOk None
  = (WindowOpen (State new_form (Some empty_table)), Some empty_table) /\
  session (State new_form (Some empty_table))
    (State (type_fields (var_name jane) (var_bday jane) (var_email jane)
              (var_phone jane) (txt_address jane) new_form)
       (Some empty_table)) /\
  In (lit "Email") COMBO_VALUES.
Proof.
  assert (M : main quiet GuiOk None
              = (WindowOpen (State new_form (Some empty_table)),
                 Some empty_table))
    by reflexivity.
  assert (S : session (State new_form (Some empty_table))
                (State (type_fields (var_name jane) (var_bday jane)
                          (var_email jane) (var_phone jane) (txt_address jane)
                          new_form)
                   (Some empty_table))).
  { apply (session_type (var_name jane) (var_bday jane) (var_email jane)
             (var_phone jane) (txt_address jane)
             (session_start (State new_form (Some empty_table)))). }
  split; [exact M |]. split; [exact S |].
  exact (proj1 (@session_submissions quiet GuiOk None _ _ _ M S)).
Defined.

(** ** Email and phone *)

Lemma plain_no_at (s : str) :
  Forall plain_char s -> count_occ ascii_dec s "@"%char = 0.
Proof.
  intro H. apply count_occ_not_In. intro Hin.
  rewrite Forall_forall in H. destruct (H _ Hin) as [Hne _]. congruence.
Qed.

Lemma plain_no_space (s : str) :
  Forall plain_char s -> existsb isspace s = false.
Proof.
  induction 1 as [| c s [_ Hc] _ IH]; simpl; [reflexivity |].
  rewrite Hc. assumption.
Qed.

Lemma spec_email_shape_facts (s : str) :
  spec_email_shape s ->
  count_occ ascii_dec s "@"%char = 1 /\ 5 <= List.length s /\
  existsb isspace s = false.
Proof.
  intros (a & b & c & -> & Ha & Hb & Hc & Fa & Fb & Fc).
  assert (La : 1 <= List.length a) by (destruct a; [congruence | simpl; lia]).
  assert (Lb : 1 <= List.length b) by (destruct b; [congruence | simpl; lia]).
  assert (Lc : 1 <= List.length c) by (destruct c; [congruence | simpl; lia]).
  rewrite !count_occ_app, !length_app, !existsb_app.
  rewrite (plain_no_at Fa), (plain_no_at Fb), (plain_no_at Fc).
  rewrite (plain_no_space Fa), (plain_no_space Fb), (plain_no_space Fc).
  simpl. repeat split. lia.
Qed.

(** X12: a text the email check accepts has exactly one [@], at least
    five characters, and no whitespace except, possibly, as its last
    character. *)
Theorem accepted_email_facts (s : str) :
  _validate_email s = true ->
  count_occ ascii_dec s "@"%char = 1 /\ 5 <= List.length s /\
  existsb isspace (removelast s) = false.
Proof.
  intro H. apply validate_email_iff in H.
  destruct H as [H | (s' & -> & H)];
    pose proof (spec_email_shape_facts H) as (H1 & H2 & H3).
  - split; [assumption |]. split; [assumption |].
    destruct (existsb isspace (removelast s)) eqn:E; [| reflexivity].
    apply existsb_exists in E as (c & Hc & Hs).
    assert (Hin : In c s).
    { destruct s as [| a s]; [contradiction |].
      rewrite (app_removelast_last a (l := a :: s)) by discriminate.
      apply in_or_app. auto. }
    assert (T : existsb isspace s = true)
      by (apply existsb_exists; exists c; auto).
    congruence.
  - rewrite count_occ_app, length_app, removelast_last, H1. simpl.
    repeat split; [lia | assumption].
Qed.

Lemma accepted_email_witness :
  _validate_email (lit "a@b.co") = true /\
  count_occ ascii_dec (lit "a@b.co") "@"%char = 1.
Proof.
  split; [reflexivity |].
  exact (proj1 (@accepted_email_facts (lit "a@b.co") eq_refl)).
Defined.

(** X13: the phone check asks for no digit: every text of seven or more
    characters among [+], [-], [(], [)] and the space is accepted. *)
Theorem validate_phone_needs_no_digit (s : str) :
  7 <= List.length s ->
  Forall (fun c => In c (lit "+-() ")) s ->
  _validate_phone s = true.
Proof.
  intros Hl HF. apply validate_phone_iff, PHONE_RE_shape.
  split; [| assumption].
  eapply Forall_impl; [| exact HF]. intros c Hc. apply phone_char_class.
  simpl in Hc. destruct Hc as [<- | [<- | [<- | [<- | [<- | []]]]]];
    reflexivity.
Qed.

Lemma validate_phone_needs_no_digit_witness :
  7 <= List.length (lit "(+) -- ()") /\
  _validate_phone (lit "(+) -- ()") = true.
Proof.
  split; [simpl; lia |].
  apply validate_phone_needs_no_digit; [simpl; lia |].
  apply Forall_forall. intros c Hc. simpl in Hc.
  repeat (destruct Hc as [<- | Hc]; [simpl; tauto |]). contradiction.
Defined.

(** ** Birthdays *)

Lemma format_regex_match_render (y m d : N) :
  (1 <= m <= 12)%N -> (1 <= d <= 31)%N ->
  format_regex_match (render_date (y, m, d))
  = Some (year_text y, pad2 m, pad2 d, []).
Proof.
  intros Hm Hd. unfold format_regex_match, render_date, year_text, pad2.
  cbn [app lit list_ascii_of_string].
  apply render_year; try apply digit_char_isdigit.
  rewrite match_literal_same.
  apply (@render_month m); [exact Hm |].
  rewrite match_literal_same.
  apply (@render_day d); [exact Hd | reflexivity].
Qed.

Lemma strptime_render_date (y m d : N) :
  (y <= 9999)%N -> (1 <= m <= 12)%N -> (1 <= d <= 31)%N ->
  strptime (render_date (y, m, d))
  = if valid_date y m d then Some (y, m, d) else None.
Proof.
  intros Hy Hm Hd. unfold strptime.
  rewrite format_regex_match_render by assumption.
  unfold year_text, pad2. rewrite int_year by assumption.
  rewrite (proj2 (@render_month m unit (fun _ _ => Some tt) [] tt Hm eq_refl)).
  rewrite (proj2 (@render_day d unit (fun _ _ => Some tt) [] tt Hd eq_refl)).
  reflexivity.
Qed.

(** X14: a text [YYYY-MM-DD] with a year from 1 to 9999, a month from 1
    to 12 and a day from 1 to 31 is accepted by the birthday check
    exactly when that month of that year has such a day: 30 February and
    31 April are rejected, 29 February is accepted in leap years only. *)
Theorem validate_birthday_calendar (y m d : N) :
  (1 <= y <= 9999)%N -> (1 <= m <= 12)%N -> (1 <= d <= 31)%N ->
  _validate_birthday (render_date (y, m, d)) = (d <=? _days_in_month y m)%N /\
  _validate_birthday (render_date (y, 2, 30)%N) = false /\
  _validate_birthday (render_date (y, 4, 31)%N) = false /\
  _validate_birthday (render_date (y, 2, 29)%N) = _is_leap y.
Proof.
  intros Hy Hm Hd.
  assert (G : forall m' d', (1 <= m' <= 12)%N -> (1 <= d' <= 31)%N ->
              _validate_birthday (render_date (y, m', d'))
              = (d' <=? _days_in_month y m')%N).
  { intros m' d' Hm' Hd'. unfold _validate_birthday.
    rewrite strptime_render_date by lia.
    unfold valid_date.
    replace (1 <=? y)%N with true by (symmetry; apply N.leb_le; lia).
    replace (y <=? 9999)%N with true by (symmetry; apply N.leb_le; lia).
    replace (1 <=? m')%N with true by (symmetry; apply N.leb_le; lia).
    replace (m' <=? 12)%N with true by (symmetry; apply N.leb_le; lia).
    replace (1 <=? d')%N with true by (symmetry; apply N.leb_le; lia).
    simpl. destruct (d' <=? _days_in_month y m')%N; reflexivity. }
  split; [apply G; assumption |].
  rewrite !G by lia. unfold _days_in_month. simpl.
  destruct (_is_leap y); repeat split.
Qed.

Lemma validate_birthday_calendar_witness :
  (1 <= 2023 <= 9999)%N /\ (1 <= 2 <= 12)%N /\ (1 <= 29 <= 31)%N /\
  _validate_birthday (render_date (2023, 2, 29)%N) = false.
Proof.
  assert (Hy : (1 <= 2023 <= 9999)%N) by lia.
  assert (Hm : (1 <= 2 <= 12)%N) by lia.
  assert (Hd : (1 <= 29 <= 31)%N) by lia.
  repeat (split; [assumption |]).
  exact (proj1 (validate_birthday_calendar Hy Hm Hd)).
Defined.

(** What the matcher of [strptime] accepts. *)

Lemma match_alternative_sound (a : alternative) :
  forall s m rest,
    match_alternative a s = Some (m, rest) ->
    s = m ++ rest /\ Forall2 (fun p c => p c = true) a m.
Proof.
  induction a as [| p a IH]; intros s m rest H; simpl in H.
  - injection H as <- <-. split; [reflexivity | constructor].
  - destruct s as [| c s]; [discriminate |].
    destruct (p c) eqn:Ep; [| discriminate].
    destruct (match_alternative a s) as [[m' rest'] |] eqn:E; [| discriminate].
    injection H as <- <-. destruct (IH _ _ _ E) as [-> F].
    split; [reflexivity | constructor; assumption].
Qed.

Lemma match_group_sound (R : Type) (alts : list alternative)
    (k : str -> str -> option R) (s : str) (r : R) :
  match_group alts k s = Some r ->
  exists a m rest,
    In a alts /\ match_alternative a s = Some (m, rest) /\ k m rest = Some r.
Proof.
  induction alts as [| a alts IH]; simpl; [discriminate |].
  intro H.
  assert (T : match_group alts k s = Some r ->
              exists a' m rest, (a = a' \/ In a' alts) /\
                match_alternative a' s = Some (m, rest) /\ k m rest = Some r).
  { intro H'. destruct (IH H') as (a' & m & rest & Hin & Hm & Hk).
    exists a', m, rest. auto. }
  destruct (match_alternative a s) as [[m rest] |] eqn:E; [| auto].
  destruct (k m rest) as [r' |] eqn:Ek; [| auto].
  injection H as <-. exists a, m, rest. auto.
Qed.

Lemma match_literal_sound (R : Type) (c : ascii) (k : str -> option R)
    (s : str) (r : R) :
  match_literal c k s = Some r -> exists s', s = c :: s' /\ k s' = Some r.
Proof.
  unfold match_literal. destruct s as [| c' s']; [discriminate |].
  destruct (is_char c c') eqn:E; [| discriminate].
  apply is_char_eq in E as ->. eauto.
Qed.

Lemma format_regex_match_sound (s ty tm td rest : str) :
  format_regex_match s = Some (ty, tm, td, rest) ->
  s = ty ++ lit "-" ++ tm ++ lit "-" ++ td ++ rest /\
  (exists aY, In aY directive_Y /\ Forall2 (fun p c => p c = true) aY ty) /\
  (exists aM, In aM directive_m /\ Forall2 (fun p c => p c = true) aM tm) /\
  (exists aD, In aD directive_d /\ Forall2 (fun p c => p c = true) aD td).
Proof.
  unfold format_regex_match. intro H.
  apply match_group_sound in H as (aY & y & s1 & HY & EY & H).
  apply match_literal_sound in H as (s2 & -> & H).
  apply match_group_sound in H as (aM & m & s3 & HM & EM & H).
  apply match_literal_sound in H as (s4 & -> & H).
  apply match_group_sound in H as (aD & d & s5 & HD & ED & H).
  injection H as <- <- <- <-.
  apply match_alternative_sound in EY as [-> FY].
  apply match_alternative_sound in EM as [-> FM].
  apply match_alternative_sound in ED as [-> FD].
  split; [reflexivity |]. eauto 10.
Qed.

Lemma in_range_enum (lo hi c : ascii) :
  in_range lo hi c = true ->
  exists k : N, (code lo <= k <= code hi)%N /\ c = ascii_of_N k.
Proof.
  unfold in_range. rewrite andb_true_iff, !N.leb_le. intro H.
  exists (code c). split; [assumption |].
  unfold code. symmetry. apply ascii_N_embedding.
Qed.

Lemma isdigit_digit_char (c : ascii) :
  isdigit c = true -> exists k : N, (k < 10)%N /\ c = digit_char k.
Proof.
  intro H. apply in_range_enum in H as (k & Hk & ->).
  change (code "0") with 48%N in Hk. change (code "9") with 57%N in Hk.
  exists (k - 48)%N. split; [lia |]. unfold digit_char.
  rewrite N.mod_small by lia. f_equal. lia.
Qed.

Lemma digit_char_mod (n k : N) :
  (n mod 10 = k mod 10)%N -> digit_char n = digit_char k.
Proof. unfold digit_char. intros ->. reflexivity. Qed.

Lemma year_text_of_digits (a b c d : ascii) :
  isdigit a = true -> isdigit b = true -> isdigit c = true ->
  isdigit d = true ->
  [a; b; c; d] = year_text (int [a; b; c; d]).
Proof.
  intros Ha Hb Hc Hd.
  apply isdigit_digit_char in Ha as (ka & La & ->).
  apply isdigit_digit_char in Hb as (kb & Lb & ->).
  apply isdigit_digit_char in Hc as (kc & Lc & ->).
  apply isdigit_digit_char in Hd as (kd & Ld & ->).
  unfold int. rewrite strip_digits4. simpl.
  rewrite !digit_char_code, !sub48.
  rewrite !(N.mod_small _ 10) by assumption.
  match goal with
  | |- _ = year_text ?v =>
      assert (E : v = (1000 * ka + 100 * kb + 10 * kc + kd)%N) by lia;
      rewrite E
  end.
  unfold year_text.
  f_equal; [| f_equal; [| f_equal; [| f_equal]]];
    apply digit_char_mod;
    zify; Z.to_euclidean_division_equations; lia.
Qed.

Ltac enum_chars H :=
  let k := fresh "k" in
  let Hk := fresh "Hk" in
  apply in_range_enum in H as (k & Hk & ->);
  unfold code in Hk; cbn in Hk;
  let C := fresh "C" in
  assert (C : (k = 48 \/ k = 49 \/ k = 50 \/ k = 51 \/ k = 52 \/ k = 53
               \/ k = 54 \/ k = 55 \/ k = 56 \/ k = 57)%N) by lia;
  clear Hk.

Ltac inv_Forall2 :=
  repeat match goal with
  | H : Forall2 _ (_ :: _) _ |- _ => inversion H; subst; clear H
  | H : Forall2 _ [] _ |- _ => inversion H; subst; clear H
  end.

Ltac fix_chars :=
  repeat match goal with
  | H : is_char _ _ = true |- _ => apply is_char_eq in H; subst
  end.

Lemma month_text_sound (aM : alternative) (tm : str) :
  In aM directive_m -> Forall2 (fun p c => p c = true) aM tm ->
  In tm (month_texts (int tm)).
Proof.
  intros [<- | [<- | [<- | []]]] F; inv_Forall2; fix_chars;
    match goal with H : in_range _ _ _ = true |- _ => enum_chars H end;
    repeat (destruct C as [-> | C]; [vm_compute; tauto || (exfalso; vm_compute in *; intuition discriminate) |]);
    subst; vm_compute; tauto || (exfalso; vm_compute in *; intuition discriminate).
Qed.

Lemma day_text_sound (aD : alternative) (td : str) :
  In aD directive_d -> Forall2 (fun p c => p c = true) aD td ->
  In td (day_texts (int td)).
Proof.
  intros [<- | [<- | [<- | [<- | [<- | []]]]]] F; inv_Forall2; fix_chars;
    repeat match goal with
           | H : in_range _ _ _ = true |- _ => enum_chars H
           | H : isdigit _ = true |- _ => unfold isdigit in H
           end;
    repeat match goal with
           | C : _ \/ _ |- _ => destruct C as [-> | C]
           end; subst; vm_compute; tauto.
Qed.

Lemma month_text_parse (m : N) (M : str) (R : Type)
    (k : str -> str -> option R) (s : str) (r : R) :
  (1 <= m <= 12)%N -> In M (month_texts m) ->
  k M ("-"%char :: s) = Some r ->
  match_group directive_m k (M ++ "-"%char :: s) = Some r /\ int M = m.
Proof.
  intros H HM Hk. apply month_cases in H. simpl in H.
  repeat (destruct H as [<- | H];
          [vm_compute in HM;
           repeat (destruct HM as [<- | HM];
                   [vm_compute in Hk; split; [cbn; rewrite Hk |]; reflexivity
                   |]);
           contradiction |]).
  contradiction.
Qed.

Lemma day_text_parse (d : N) (D : str) (R : Type)
    (k : str -> str -> option R) (r : R) :
  (1 <= d <= 31)%N -> In D (day_texts d) ->
  k D [] = Some r ->
  match_group directive_d k D = Some r /\ int D = d.
Proof.
  intros H HD Hk. apply day_cases in H. simpl in H.
  repeat (destruct H as [<- | H];
          [vm_compute in HD;
           repeat (destruct HD as [<- | HD];
                   [vm_compute in Hk; split; [cbn; rewrite Hk |]; reflexivity
                   |]);
           contradiction |]).
  contradiction.
Qed.

Lemma strptime_accepted_shape (y m d : N) (M D : str) :
  valid_date y m d = true ->
  In M (month_texts m) -> In D (day_texts d) ->
  strptime (year_text y ++ lit "-" ++ M ++ lit "-" ++ D) = Some (y, m, d).
Proof.
  intros V HM HD. destruct (valid_date_bounds _ _ _ V) as (Hy & Hm & Hd).
  assert (E : format_regex_match (year_text y ++ lit "-" ++ M ++ lit "-" ++ D)
              = Some (year_text y, M, D, [])).
  { unfold format_regex_match, year_text.
    cbn [app lit list_ascii_of_string].
    apply render_year; try apply digit_char_isdigit.
    rewrite match_literal_same.
    apply (@month_text_parse m M); [exact Hm | exact HM |].
    rewrite match_literal_same.
    apply (@day_text_parse d D); [exact Hd | exact HD | reflexivity]. }
  unfold strptime. rewrite E. unfold year_text.
  rewrite int_year by lia.
  rewrite (proj2 (@month_text_parse m M unit (fun _ _ => Some tt) [] tt
                    Hm HM eq_refl)).
  rewrite (proj2 (@day_text_parse d D unit (fun _ _ => Some tt) tt
                    Hd HD eq_refl)).
  rewrite V. reflexivity.
Qed.

Lemma strptime_shape (s : str) (y m d : N) :
  strptime s = Some (y, m, d) ->
  valid_date y m d = true /\
  exists M D,
    In M (month_texts m) /\ In D (day_texts d) /\
    s = year_text y ++ lit "-" ++ M ++ lit "-" ++ D.
Proof.
  intro H. pose proof (strptime_valid _ H) as V. split; [assumption |].
  unfold strptime in H.
  destruct (format_regex_match s) as [[[[ty tm] td] rest] |] eqn:F;
    [| discriminate].
  destruct rest; [| discriminate].
  destruct (valid_date (int ty) (int tm) (int td)); [| discriminate].
  injection H as <- <- <-.
  apply format_regex_match_sound in F
    as (-> & (aY & HY & FY) & (aM & HM & FM) & (aD & HD & FD)).
  exists tm, td.
  split; [eapply month_text_sound; eassumption |].
  split; [eapply day_text_sound; eassumption |].
  rewrite app_nil_r. f_equal.
  destruct HY as [<- | []]. inv_Forall2.
  apply year_text_of_digits; assumption.
Qed.

(** X15: the texts the birthday check accepts are exactly the texts
    year [-] month [-] day of a valid calendar date in which the year has
    four digits, the month has two digits or, before October, one, and the
    day has two digits or, before the tenth, one digit or a space and one
    digit.  Whatever is accepted parses to a date whose [YYYY-MM-DD]
    rendering is accepted and parses to the same date. *)
Theorem validate_birthday_accepted_texts (s : str) :
  (_validate_birthday s = true <-> accepted_birthday_shape s) /\
  (forall ymd : N * N * N,
      strptime s = Some ymd -> strptime (render_date ymd) = Some ymd).
Proof.
  split.
  - unfold _validate_birthday, accepted_birthday_shape. split.
    + destruct (strptime s) as [[[y m] d] |] eqn:E; [| discriminate].
      intros _. apply strptime_shape in E as (V & M & D & HM & HD & ->).
      exists y, m, d, M, D. auto.
    + intros (y & m & d & M & D & V & HM & HD & ->).
      rewrite (@strptime_accepted_shape y m d M D V HM HD). reflexivity.
  - intros [[y m] d] H. apply rendered_date_accepted.
    eapply strptime_valid. eassumption.
Qed.

(** ** The stored rows and the data model *)

(** What passes the six checks of [on_submit]. *)
Lemma accepted_data_checked (f : form) :
  errors_of (stripped f) = [] -> checked_constraints (stripped f).
Proof.
  intro H. apply errors_of_nil in H. unfold checks in H. simpl in H.
  rewrite !andb_true_iff in H.
  destruct H as (Hn & Hb & He & Hp & Ha & Hc & _).
  unfold checked_constraints, stripped.
  cbn [name birthday email phone address preferred_contact].
  split; [| split; [| split; [| split; [| split]]]].
  - unfold _validate_name in Hn.
    destruct (strip (strip (var_name f))); [discriminate | discriminate].
  - unfold _validate_birthday in Hb.
    destruct (strptime (strip (var_bday f))) as [[[y m] d] |] eqn:E;
      [| discriminate].
    apply strptime_shape in E as (V & M & D & HM & HD & E).
    exists y, m, d, M, D. auto.
  - apply EMAIL_RE_shape, validate_email_stripped. assumption.
  - apply validate_phone_iff. assumption.
  - unfold _validate_address in Ha.
    destruct (strip (strip (txt_address_get f))); [discriminate | discriminate].
  - apply contact_check_In. assumption.
Qed.

Lemma step_appends (e : env) (a : action) (s : state) :
  exists new : list row,
    db_rows (st_db (step e a s)) = db_rows (st_db s) ++ new /\
    List.length new <= 1.
Proof.
  destruct (step_db_cases e a s) as [-> | [[-> ->] | (t & -> & _ & ->)]].
  - exists []. rewrite app_nil_r. auto.
  - exists []. auto.
  - eexists. split; [reflexivity |]. simpl. auto.
Qed.

(** C6: the code at a form whose birthday is [2001-4-9].  After
    [init_db] and the submission of that form the table holds a row whose
    birthday is the text [2001-4-9], which is the [YYYY-MM-DD] form of no
    date: the stored rows do not all meet the field constraints of the
    data model.  What the validation before the write does secure, in
    every reachable state and for every row: name and address not empty
    once trimmed, a birthday that is a valid calendar date written with or
    without the zero padding, email and phone in the language of their
    patterns, a preferred contact among the three literals; and every
    step keeps the rows it found and adds at most one. *)
Theorem persisted_birthday_not_iso :
  reachable after_unpadded /\
  db_rows (st_db after_unpadded)
  = [Row 1 (stripped unpadded_form) (now quiet)] /\
  birthday (stripped unpadded_form) = lit "2001-4-9" /\
  ~ spec_birthday_shape (lit "2001-4-9") /\
  ~ table_ok (st_db after_unpadded) /\
  (forall s : state,
      reachable s ->
      Forall (fun r => checked_constraints (data r)) (db_rows (st_db s))) /\
  (forall (e : env) (a : action) (s : state),
      exists new : list row,
        db_rows (st_db (step e a s)) = db_rows (st_db s) ++ new /\
        List.length new <= 1).
Proof.
  assert (N : ~ spec_birthday_shape (lit "2001-4-9")).
  { intros (y & m & d & _ & E).
    apply (f_equal (@List.length ascii)) in E.
    rewrite render_date_length in E. discriminate. }
  split; [unfold after_unpadded; apply reach_step, reach_step, reach_start |].
  split; [reflexivity |]. split; [reflexivity |]. split; [exact N |].
  split; [| split].
  - intro T.
    change (st_db after_unpadded)
      with (Some (Table [Row 1 (stripped unpadded_form) (now quiet)] 1)) in T.
    simpl in T. inversion T as [| r l (_ & B & _) _]; subst.
    apply N. exact B.
  - apply reachable_rows. intros e f i Hv. apply accepted_data_checked.
    assumption.
  - apply step_appends.
Qed.
